(** * WebGL Game of Life: the simulation core of [js/gol.js] and [glsl/gol.frag]

    A shallow embedding of the snapshot codec ([GOL.compact], [GOL.expand]),
    of the texture pair and the operations on it ([set], [setRandom],
    [setEmpty], [poke], [get], [swap], [step]), of the fragment shader that
    computes one generation, of the interval timer ([start], [stop],
    [toggle]), of the page's controller with its mouse and key handlers, and
    of the timing statistics ([timeFn], [calcTimingsStats]). *)

From Stdlib Require Import ZArith QArith Qround Lia Lqa Floats.
From stdpp Require Import gmap list strings.

Close Scope Q_scope.
Open Scope Z_scope.

(** ** JavaScript values used as conditions *)

(** [state[i] ? a : b] tests the truthiness of the entry.  The arrays that
    reach the code hold booleans or the 0/1 numbers of a [Uint8Array]. *)
Class Truthy (A : Type) := truthy : A → bool.

#[global] Instance bool_truthy : Truthy bool := λ b, b.
#[global] Instance Z_truthy : Truthy Z := λ z, negb (z =? 0).

(** [x ? 1 : 0] *)
Definition bit_of (b : bool) : Z := if b then 1 else 0.

(** Reading [a[i]]: an index past the end yields [undefined]; as a condition
    that is false, as an operand of [|] or [>>] it is 0. *)
Definition truthy_at {A} `{Truthy A} (a : list A) (i : nat) : bool :=
  match a !! i with Some v => truthy v | None => false end.

Definition byte_at (a : list Z) (i : nat) : Z := default 0 (a !! i).

(** [new Uint8Array(n)]: [n] zero bytes.  A store [a[i] = v] keeps [v] modulo
    256 and does nothing when [i] is past the end, which is what the list
    insert of stdpp does. *)
Definition Uint8Array (n : nat) : list Z := replicate n 0.

Definition store8 (a : list Z) (i : nat) (v : Z) : list Z := <[i := v `mod` 256]> a.

(** ** Snapshot codec *)

Module Codec.

(** Body of the loop of [GOL.compact]:
    [compact[ii] |= bit << shift] with [ii = floor(i / 8)], [shift = i % 8]. *)
Definition compact_body {A} `{Truthy A} (state : list A) (compact : list Z) (i : nat) : list Z :=
  let ii := (i / 8)%nat in
  let shift := (i mod 8)%nat in
  let bit := bit_of (truthy_at state i) in
  store8 compact ii (Z.lor (byte_at compact ii) (Z.shiftl bit (Z.of_nat shift))).

(** [GOL.compact].  [new Uint8Array(state.length / 8)] rounds a fractional
    length down, so the array has [length state / 8] bytes. *)
Definition compact {A} `{Truthy A} (state : list A) : list Z :=
  foldl (compact_body state) (Uint8Array (length state / 8)) (seq 0 (length state)).

(** Body of the loop of [GOL.expand]: [state[i] = (compact[ii] >> shift) & 1]. *)
Definition expand_body (compact : list Z) (state : list Z) (i : nat) : list Z :=
  let ii := (i / 8)%nat in
  let shift := (i mod 8)%nat in
  store8 state i (Z.land (Z.shiftr (byte_at compact ii) (Z.of_nat shift)) 1).

(** [GOL.expand] *)
Definition expand (buffer : list Z) : list Z :=
  let compact := buffer in
  foldl (expand_body compact) (Uint8Array (length compact * 8)) (seq 0 (length compact * 8)).

(** The length the specification gives for the packed stream. *)
Definition ceil_div8 (n : nat) : nat := ((n + 7) / 8)%nat.

End Codec.

(** ** Completions and the environment *)

(** A call either returns or throws.  The only [throw] of [gol.js] is the
    [Error('No WebGL')] of the constructor. *)
Inductive completion (A : Type) : Type :=
  | Normal (a : A)
  | Throw (message : string).
Arguments Normal {A} a.
Arguments Throw {A} message.

(** One RGBA/UNSIGNED_BYTE texel. *)
Record texel := RGBA { red : Z; green : Z; blue : Z; alpha : Z }.

(** A texture object: its size and its texels, row by row. *)
Record Texture := mkTexture { tex_width : Z; tex_height : Z; texels : list texel }.

(** What the methods of a [GOL] act on besides the object itself: the GL
    context of the canvas, the browser's interval timers and [Math.random]. *)
Record Env := mkEnv {
  webgl : bool;               (* does the canvas give a WebGL context *)
  gpu : gmap nat Texture;     (* the texture objects that exist, by identity *)
  bound : option nat;         (* TEXTURE_2D binding of texture unit 0 *)
  attached : option nat;      (* colour attachment of [framebuffers.step] *)
  timers : gmap nat Z;        (* running intervals, id ↦ delay in ms *)
  next_timer : nat;           (* the id the next [setInterval] returns *)
  random : nat → Q;           (* the results of [Math.random()], in order *)
  drawn : nat                 (* how many of them were consumed *)
}.

Definition with_gpu (f : gmap nat Texture → gmap nat Texture) (e : Env) : Env :=
  mkEnv (webgl e) (f (gpu e)) (bound e) (attached e) (timers e) (next_timer e) (random e) (drawn e).
Definition with_bound (b : option nat) (e : Env) : Env :=
  mkEnv (webgl e) (gpu e) b (attached e) (timers e) (next_timer e) (random e) (drawn e).
Definition with_attached (a : option nat) (e : Env) : Env :=
  mkEnv (webgl e) (gpu e) (bound e) a (timers e) (next_timer e) (random e) (drawn e).
Definition with_timers (f : gmap nat Z → gmap nat Z) (e : Env) : Env :=
  mkEnv (webgl e) (gpu e) (bound e) (attached e) (f (timers e)) (next_timer e) (random e) (drawn e).
Definition with_next_timer (n : nat) (e : Env) : Env :=
  mkEnv (webgl e) (gpu e) (bound e) (attached e) (timers e) n (random e) (drawn e).
Definition with_drawn (n : nat) (e : Env) : Env :=
  mkEnv (webgl e) (gpu e) (bound e) (attached e) (timers e) (next_timer e) (random e) n.

(** Methods run in the environment and complete. *)
Definition M (A : Type) : Type := Env → completion (A * Env).

Definition ret {A} (a : A) : M A := λ e, Normal (a, e).
Definition bind {A B} (m : M A) (k : A → M B) : M B :=
  λ e, match m e with
       | Normal (a, e') => k a e'
       | Throw s => Throw s
       end.
Definition throw {A} (s : string) : M A := λ _, Throw s.
Definition gets {A} (f : Env → A) : M A := λ e, Normal (f e, e).
Definition modify (f : Env → Env) : M unit := λ e, Normal (tt, f e).

Notation "x <- m ;; k" := (bind m (λ x, k))
  (at level 100, m at next level, right associativity, only parsing).
Notation "m ;;; k" := (bind m (λ _, k))
  (at level 100, right associativity, only parsing).

(** ** Texture operations *)

(** The texture and framebuffer wrappers ([igloo.texture], [blank],
    [subset], [bind], [attach]) and the quad's draw call forward to WebGL;
    their file is not among the sources. *)
Module GL.

Definition in_bounds (t : Texture) (p : Z * Z) : bool :=
  (0 <=? p.1) && (p.1 <? tex_width t) && (0 <=? p.2) && (p.2 <? tex_height t).

Definition index (t : Texture) (p : Z * Z) : nat := Z.to_nat (p.2 * tex_width t + p.1).

Definition texel_at (t : Texture) (p : Z * Z) : option texel :=
  if in_bounds t p then texels t !! index t p else None.

Definition write (t : Texture) (p : Z * Z) (v : texel) : Texture :=
  if in_bounds t p
  then mkTexture (tex_width t) (tex_height t) (<[index t p := v]> (texels t))
  else t.

(** The [k]-th texel of a [w] wide rectangle stored row by row. *)
Definition rect_pos (w : Z) (k : Z) : Z * Z := (k `mod` w, k `div` w).

Definition rect (w h : Z) : list Z := seqZ 0 (w * h).

(** Modelled from the spec: [Texture.blank(w, h)], absent from the sources:
    a buffer of [width*height] cell values, zero-initialized (all dead). *)
Definition blank (w h : Z) : Texture :=
  mkTexture w h (replicate (Z.to_nat (w * h)) (RGBA 0 0 0 0)).

(** Modelled from the spec: [igloo.texture(null, gl.RGBA, gl.REPEAT,
    gl.NEAREST).blank(w, h)], absent from the sources: a new texture object,
    owned by the grid and shared with no other, which [blank] also binds. *)
Definition create_texture (w h : Z) : M nat :=
  λ e, let id := fresh (dom (gpu e)) in
       Normal (id, with_bound (Some id) (with_gpu (λ g, <[id := blank w h]> g) e)).

(** Modelled from the spec: [Texture.bind(unit)], absent from the sources. *)
Definition bind_texture (id : nat) : M unit := modify (with_bound (Some id)).

(** Modelled from the spec: [Framebuffer.attach(texture)], absent from the
    sources: the texture becomes the target the next draw call writes. *)
Definition attach (id : nat) : M unit := modify (with_attached (Some id)).

(** Texel [k] of an RGBA/UNSIGNED_BYTE source array. *)
Definition unpack (source : list Z) (k : Z) : texel :=
  let i := Z.to_nat (4 * k) in
  RGBA (byte_at source i) (byte_at source (i + 1)) (byte_at source (i + 2)) (byte_at source (i + 3)).

(** [gl.texSubImage2D]: the rectangle must lie inside the texture and the
    source must hold it; otherwise WebGL records an error that [gol.js] never
    reads, raises no exception and leaves the texture as it was. *)
Definition texSubImage2D (source : list Z) (xoff yoff width height : Z) (t : Texture) : Texture :=
  if (0 <=? xoff) && (0 <=? yoff) && (0 <=? width) && (0 <=? height)
     && (xoff + width <=? tex_width t) && (yoff + height <=? tex_height t)
     && (4 * width * height <=? Z.of_nat (length source))
  then foldl (λ t k, write t (xoff + (rect_pos width k).1, yoff + (rect_pos width k).2) (unpack source k))
             t (rect width height)
  else t.

(** Modelled from the spec: [Texture.subset(source, xoff, yoff, width,
    height)], absent from the sources: it binds the texture and uploads the
    rectangle, setting those cells without touching the rest of the buffer. *)
Definition subset (id : nat) (source : list Z) (xoff yoff width height : Z) : M unit :=
  bind_texture id ;;;
  modify (with_gpu (λ g,
    match g !! id with
    | Some t => <[id := texSubImage2D source xoff yoff width height t]> g
    | None => g
    end)).

Definition texel_bytes (o : option texel) : list Z :=
  match o with
  | Some v => [red v; green v; blue v; alpha v]
  | None => [0; 0; 0; 0]
  end.

(** [gl.readPixels(x, y, w, h, gl.RGBA, gl.UNSIGNED_BYTE, rgba)] into a zeroed
    array: the texels of the attached texture, row by row; a pixel outside
    the framebuffer leaves its four bytes as they were. *)
Definition readPixels (x y w h : Z) : M (list Z) :=
  gets (λ e,
    match attached e ≫= (λ id, gpu e !! id) with
    | Some t => k ← rect w h; texel_bytes (texel_at t (x + (rect_pos w k).1, y + (rect_pos w k).2))
    | None => replicate (Z.to_nat (w * h * 4)) 0
    end).

End GL.

(** ** The fragment shader [glsl/gol.frag] *)

Module Shader.

Open Scope Q_scope.

Definition vec2 : Type := Q * Q.
Record vec4 := mkvec4 { vr : Q; vg : Q; vb : Q; va : Q }.

Definition vadd (a b : vec2) : vec2 := (a.1 + b.1, a.2 + b.2).
Definition vdiv (a b : vec2) : vec2 := (a.1 / b.1, a.2 / b.2).

(** [int(x)] drops the fraction. *)
Definition int (q : Q) : Z := (Qnum q ÷ Z.pos (Qden q))%Z.

(** A channel byte as the sampler returns it: [b / 255]. *)
Definition normalized (b : Z) : Q := inject_Z b / 255.

(** [gl.REPEAT]: only the fractional part of a coordinate counts. *)
Definition repeat_wrap (q : Q) : Q := q - inject_Z (Qfloor q).

(** A power of two. *)
Definition pow2 (n : Z) : bool := ((0 <? n) && (2 ^ Z.log2 n =? n))%Z.

(** The context is a WebGL 1 context, and both textures are created with
    [gl.REPEAT] and [gl.NEAREST]: such a texture can be sampled only when
    both of its sides are powers of two; otherwise it is incomplete. *)
Definition complete (sampler : Texture) : bool :=
  pow2 (tex_width sampler) && pow2 (tex_height sampler).

(** The texel [texture2D] reads on a complete texture: the one whose square
    holds the wrapped coordinate.  Coordinates are taken as exact rationals,
    not as [mediump] floats. *)
Definition nearest (sampler : Texture) (coord : vec2) : option (Z * Z) :=
  if complete sampler then
    Some (Qfloor (repeat_wrap coord.1 * inject_Z (tex_width sampler)),
          Qfloor (repeat_wrap coord.2 * inject_Z (tex_height sampler)))
  else None.

(** [texture2D]: the colour of that texel; an incomplete texture samples as
    opaque black, [(0, 0, 0, 1)]. *)
Definition texture2D (sampler : Texture) (coord : vec2) : vec4 :=
  match nearest sampler coord ≫= GL.texel_at sampler with
  | Some v =>
      mkvec4 (normalized (red v)) (normalized (green v)) (normalized (blue v))
             (normalized (alpha v))
  | None => mkvec4 0 0 0 1
  end.

Section Fragment.
(** [uniform sampler2D state; uniform vec2 scale;] and the fragment's
    window position. *)
Variable state : Texture.
Variable scale : vec2.
Variable gl_FragCoord : vec2.

Definition get (offset : vec2) : Z :=
  int (vr (texture2D state (vdiv (vadd gl_FragCoord offset) scale))).

(** The two locals of [main]. *)
Definition sumNhbrs : Z :=
  (get (-1, -1)%Q +
   get (-1, 0)%Q +
   get (-1, 1)%Q +
   get (0, -1)%Q +
   get (0, 1)%Q +
   get (1, -1)%Q +
   get (1, 0)%Q +
   get (1, 1)%Q)%Z.

Definition centre : Z := get (0, 0).

(** [main], returning [gl_FragColor]. *)
Definition main : vec4 :=
  let value := if (sumNhbrs =? 3)%Z || ((centre =? 1)%Z && (sumNhbrs =? 2)%Z) then 1 else 0 in
  mkvec4 value value value 1.
End Fragment.

(** A colour channel written to an UNSIGNED_BYTE target: clamped to [0, 1]
    and scaled to [0, 255]. *)
Definition clamp01 (q : Q) : Q :=
  if Qle_bool q 0 then 0 else if Qle_bool 1 q then 1 else q.

Definition unorm8 (q : Q) : Z := Qfloor (clamp01 q * 255 + (1 # 2)).

Definition to_texel (c : vec4) : texel :=
  RGBA (unorm8 (vr c)) (unorm8 (vg c)) (unorm8 (vb c)) (unorm8 (va c)).

(** The window position of pixel [(x, y)] is its centre. *)
Definition frag_coord (p : Z * Z) : vec2 := (inject_Z p.1 + (1 # 2), inject_Z p.2 + (1 # 2)).

End Shader.

Module Draw.

(** One fragment of the pass: the shader samples the texture bound to unit 0
    as it is at that moment and its colour goes to the attached texture. *)
Definition shade (w : Z) (scale : Z * Z) (e : Env) (k : Z) : Env :=
  match bound e ≫= (λ id, gpu e !! id), attached e with
  | Some src, Some dst =>
      let p := GL.rect_pos w k in
      let c := Shader.main src (inject_Z scale.1, inject_Z scale.2) (Shader.frag_coord p) in
      with_gpu (λ g, match g !! dst with
                     | Some t => <[dst := GL.write t p (Shader.to_texel c)]> g
                     | None => g
                     end) e
  | _, _ => e
  end.

(** Modelled from the spec: the draw call of the full-viewport quad with the
    [gol] program ([glsl/quad.vert] and the program wrapper are absent from
    the sources): every cell of the [w × h] viewport is computed, one
    fragment after the other. *)
Definition draw_gol (w h : Z) (scale : Z * Z) : M unit :=
  modify (λ e, foldl (shade w scale) e (GL.rect w h)).

End Draw.

(** ** The simulation object of [js/gol.js] *)

(** The [config] argument of the constructor; an absent key is [None]. *)
Record Config := mkConfig { config_scalePower : option Z; config_interval : option Z }.

(** The fields of a [GOL] that the simulation uses.  [fps], [lasttick] and
    [timings] only feed the statistics shown on the page and are left out. *)
Record GOL := mkGOL {
  scalePower : Z;
  scale : Z;
  interval : Z;
  viewsize : Z * Z;
  statesize : Z * Z;
  timer : option nat;
  front : nat;                (* [textures.front] *)
  back : nat;                 (* [textures.back] *)
  numSteps : Z;
  everyNSteps : Z
}.

Definition with_interval (i : Z) (this : GOL) : GOL :=
  mkGOL (scalePower this) (scale this) i (viewsize this) (statesize this) (timer this)
        (front this) (back this) (numSteps this) (everyNSteps this).
Definition with_timer (t : option nat) (this : GOL) : GOL :=
  mkGOL (scalePower this) (scale this) (interval this) (viewsize this) (statesize this) t
        (front this) (back this) (numSteps this) (everyNSteps this).
Definition with_front (f : nat) (this : GOL) : GOL :=
  mkGOL (scalePower this) (scale this) (interval this) (viewsize this) (statesize this) (timer this)
        f (back this) (numSteps this) (everyNSteps this).
Definition with_back (b : nat) (this : GOL) : GOL :=
  mkGOL (scalePower this) (scale this) (interval this) (viewsize this) (statesize this) (timer this)
        (front this) b (numSteps this) (everyNSteps this).
Definition with_numSteps (n : Z) (this : GOL) : GOL :=
  mkGOL (scalePower this) (scale this) (interval this) (viewsize this) (statesize this) (timer this)
        (front this) (back this) n (everyNSteps this).

(** [function GOL(canvas, config)].  [canvas] is the canvas' width and height;
    they are multiples of the cell size, so that [w / scale] and [h / scale]
    are whole numbers. *)
Definition new_GOL (canvas : Z * Z) (config : Config) : M GOL :=
  let scalePower := default 2 (config_scalePower config) in
  let interval := default 60 (config_interval config) in
  gl <- gets webgl ;;
  if negb gl then throw "No WebGL" else
  let scale := 2 ^ scalePower in
  let w := canvas.1 in
  let h := canvas.2 in
  let statesize := (w `div` scale, h `div` scale) in
  front <- GL.create_texture statesize.1 statesize.2 ;;
  back <- GL.create_texture statesize.1 statesize.2 ;;
  ret (mkGOL scalePower scale interval (w, h) statesize None front back 0 100).

(** Body of the loop of [GOL.prototype.set]. *)
Definition set_body {A} `{Truthy A} (state : list A) (rgba : list Z) (i : nat) : list Z :=
  let ii := (i * 4)%nat in
  let v := if truthy_at state i then 255 else 0 in
  let rgba := store8 rgba (ii + 2) v in
  let rgba := store8 rgba (ii + 1) v in
  let rgba := store8 rgba (ii + 0) v in
  store8 rgba (ii + 3) 255.

(** [GOL.prototype.set] *)
Definition set {A} `{Truthy A} (state : list A) (this : GOL) : M GOL :=
  let rgba := foldl (set_body state)
                (Uint8Array (Z.to_nat ((statesize this).1 * (statesize this).2 * 4)))
                (seq 0 (length state)) in
  GL.subset (front this) rgba 0 0 (statesize this).1 (statesize this).2 ;;;
  ret this.

(** [Math.random()] *)
Definition Math_random : M Q :=
  λ e, Normal (random e (drawn e), with_drawn (S (drawn e)) e).

(** [a < b] on numbers. *)
Definition Qltb (a b : Q) : bool := negb (Qle_bool b a).

(** A [for] loop over indices whose body runs in the environment. *)
Fixpoint for_each {A} (body : A → nat → M A) (a : A) (indices : list nat) : M A :=
  match indices with
  | [] => ret a
  | i :: rest => a' <- body a i ;; for_each body a' rest
  end.

(** [GOL.prototype.setRandom]; [p] is [None] when the argument is omitted. *)
Definition setRandom (p : option Q) (this : GOL) : M GOL :=
  let size := Z.to_nat ((statesize this).1 * (statesize this).2) in
  let p := default (1 # 2)%Q p in
  rand <- for_each (λ rand i, x <- Math_random ;;
                              ret (store8 rand i (if Qltb x p then 1 else 0)))
                   (Uint8Array size) (seq 0 size) ;;
  set rand this ;;;
  ret this.

(** A call [gol.setRandom(p, rng)]: the function declares the one parameter
    [p], so a second argument is dropped. *)
Definition setRandom_with (p : option Q) (rng : nat → Q) (this : GOL) : M GOL :=
  setRandom p this.

(** [GOL.prototype.setEmpty] *)
Definition setEmpty (this : GOL) : M GOL :=
  set (Uint8Array (Z.to_nat ((statesize this).1 * (statesize this).2))) this ;;;
  ret this.

(** [GOL.prototype.swap] *)
Definition swap (this : GOL) : M GOL :=
  let tmp := front this in
  let this := with_front (back this) this in
  let this := with_back tmp this in
  ret this.

(** [GOL.prototype.step], without the frame counter and the timings. *)
Definition step (this : GOL) : M GOL :=
  let this := with_numSteps (numSteps this + 1) this in
  GL.attach (back this) ;;;
  GL.bind_texture (front this) ;;;
  Draw.draw_gol (statesize this).1 (statesize this).2 (statesize this) ;;;
  swap this.

(** [GOL.prototype.draw]: the copy to the canvas reads the front texture and
    writes no texture. *)
Definition draw (this : GOL) : M GOL :=
  GL.bind_texture (front this) ;;;
  ret this.

(** [GOL.prototype.poke]; the plain array [[v, v, v, 255]] is copied into a
    [Uint8Array] before the upload. *)
Definition poke (x y : Z) (state : bool) (this : GOL) : M GOL :=
  let v := bit_of state * 255 in
  GL.subset (front this) ((λ b, b `mod` 256) <$> [v; v; v; 255]) x y 1 1 ;;;
  ret this.

(** [GOL.prototype.get] *)
Definition get (this : GOL) : M (list Z) :=
  let w := (statesize this).1 in
  let h := (statesize this).2 in
  GL.attach (front this) ;;;
  rgba <- GL.readPixels 0 0 w h ;;
  let state := foldl (λ state i, store8 state i (if 128 <? byte_at rgba (i * 4) then 1 else 0))
                 (Uint8Array (Z.to_nat (w * h))) (seq 0 (Z.to_nat (w * h))) in
  ret state.

(** [setInterval(callback, delay)]: a new timer, whose id is returned. *)
Definition setInterval (delay : Z) : M nat :=
  λ e, let id := next_timer e in
       Normal (id, with_next_timer (S id) (with_timers (λ t, <[id := delay]> t) e)).

(** [clearInterval(id)]; [clearInterval(null)] does nothing. *)
Definition clearInterval (id : option nat) : M unit :=
  modify (with_timers (λ t, match id with Some i => delete i t | None => t end)).

(** [GOL.prototype.start] *)
Definition start (this : GOL) : M GOL :=
  match timer this with
  | None =>
      id <- setInterval (interval this) ;;
      ret (with_timer (Some id) this)
  | Some _ => ret this
  end.

(** [GOL.prototype.stop] *)
Definition stop (this : GOL) : M GOL :=
  clearInterval (timer this) ;;;
  ret (with_timer None this).

(** [GOL.prototype.toggle] *)
Definition toggle (this : GOL) : M GOL :=
  match timer this with
  | None => start this
  | Some _ => stop this
  end.

(** The callback of the interval. *)
Definition tick (this : GOL) : M GOL :=
  this <- step this ;;
  draw this.

(** The [keyup] cases of [Controller] that change the interval. *)
Definition key_comma (this : GOL) : M GOL :=
  let this := with_interval (if interval this =? 0 then 1 else interval this * 2) this in
  this <- stop this ;;
  start this.

Definition key_period (this : GOL) : M GOL :=
  let this := with_interval (interval this `div` 2) this in
  this <- stop this ;;
  start this.

(** What a driver can ask of the scheduler. *)
Inductive command := Start | Stop | Toggle | Comma | Period.

Definition run_command (c : command) : GOL → M GOL :=
  match c with
  | Start => start
  | Stop => stop
  | Toggle => toggle
  | Comma => key_comma
  | Period => key_period
  end.

Fixpoint run_commands (cs : list command) (this : GOL) : M GOL :=
  match cs with
  | [] => ret this
  | c :: rest => this <- run_command c this ;; run_commands rest this
  end.

(** ** Reading the model *)

(** A fresh page: a context is available, no texture and no timer exists. *)
Definition page (rnd : nat → Q) : Env := mkEnv true ∅ None None ∅ 1 rnd 0.

(** The cell is alive for [get]: its red byte exceeds 128. *)
Definition alive (v : texel) : bool := 128 <? red v.

(** The generation a texture holds, as [get] reports it. *)
Definition cells (t : Texture) : list Z := (λ v, bit_of (alive v)) <$> texels t.

(** The front generation, if the front texture exists. *)
Definition generation (this : GOL) (e : Env) : option (list Z) :=
  cells <$> gpu e !! front this.

(** Cell [(x, y)] of a generation of a [w] wide grid, 0 outside of it. *)
Definition cell (w : Z) (s : list Z) (x y : Z) : Z := byte_at s (Z.to_nat (y * w + x)).

(** The live neighbours of [(x, y)] on the [w × h] torus. *)
Definition liveNeighbors (w h : Z) (s : list Z) (x y : Z) : Z :=
  let at_ dx dy := cell w s ((x + dx) `mod` w) ((y + dy) `mod` h) in
  at_ (-1) (-1) + at_ (-1) 0 + at_ (-1) 1 + at_ 0 (-1) + at_ 0 1 + at_ 1 (-1) + at_ 1 0 + at_ 1 1.

(** The rule of the Game of Life on 0/1 cells. *)
Definition rule (centre n : Z) : Z :=
  bit_of ((n =? 3) || ((centre =? 1) && (n =? 2))).

(** A texture of the grid's size. *)
Definition sized (w h : Z) (t : Texture) : Prop :=
  0 ≤ w ∧ 0 ≤ h ∧ tex_width t = w ∧ tex_height t = h
  ∧ length (texels t) = Z.to_nat (w * h).

(** The texel list of [t] has one entry per cell. *)
Definition full (t : Texture) : Prop :=
  0 ≤ tex_width t ∧ 0 ≤ tex_height t
  ∧ length (texels t) = Z.to_nat (tex_width t * tex_height t).

(** Every cell is stored as 0 or 255. *)
Definition binary (t : Texture) : Prop :=
  Forall (λ v, red v = 0 ∨ red v = 255) (texels t).

(** The state of a simulation between two calls: two distinct textures of the
    grid's size, the front one holding 0/255 cells. *)
Record wf (this : GOL) (e : Env) : Prop := mkwf {
  wf_distinct : front this ≠ back this;
  wf_front : ∃ t, gpu e !! front this = Some t
                  ∧ sized (statesize this).1 (statesize this).2 t ∧ binary t;
  wf_back : ∃ t, gpu e !! back this = Some t
                 ∧ sized (statesize this).1 (statesize this).2 t
}.

(** The scheduler owns the page's timers: the one it remembers, or none. *)
Definition scheduled (this : GOL) (e : Env) : Prop :=
  match timer this with
  | Some id => timers e = {[id := interval this]}
  | None => timers e = ∅
  end.

(** The front generation once [m] has run, or what [m] threw. *)
Definition generation_after (m : M GOL) (e : Env) : completion (option (list Z)) :=
  match m e with
  | Normal (this, e') => Normal (generation this e')
  | Throw s => Throw s
  end.

(** A pass that writes one texel for every key of a list. *)
Definition pass {K} (pos : K → Z * Z) (val : K → texel) (t : Texture) (ks : list K) : Texture :=
  foldl (λ t k, GL.write t (pos k) (val k)) t ks.

(** The texel the pass of [step] computes for fragment [k] when it samples
    [src]. *)
Definition shaded (w h : Z) (src : Texture) (k : Z) : texel :=
  Shader.to_texel (Shader.main src (inject_Z w, inject_Z h) (Shader.frag_coord (GL.rect_pos w k))).

(** The texture that pass leaves in the target [dst]. *)
Definition next_texture (w h : Z) (src dst : Texture) : Texture :=
  pass (GL.rect_pos w) (shaded w h src) dst (GL.rect w h).

(** The bytes [set] stores for cell [j]: channel [c] of its colour. *)
Definition set_byte {A} `{Truthy A} (state : list A) (j c : nat) : Z :=
  if (c =? 3)%nat then 255 else if truthy_at state j then 255 else 0.

(** The environment while the pass of [step] runs, after [n] fragments. *)
Definition during_step (this : GOL) (e : Env) (n : nat) : Env :=
  foldl (Draw.shade (statesize this).1 (statesize this))
        (with_bound (Some (front this)) (with_attached (Some (back this)) e))
        (take n (GL.rect (statesize this).1 (statesize this).2)).

(** ** Small grids *)

(** A 3 × 3 grid whose only live cell is [(0, 0)]. *)
Definition lone3 : Texture :=
  mkTexture 3 3 (RGBA 255 255 255 255 :: replicate 8 (RGBA 0 0 0 255)).

Definition grid3 : GOL := mkGOL 0 1 60 (3, 3) (3, 3) None 0 1 0 100.

Definition env3 : Env :=
  mkEnv true {[0%nat := lone3; 1%nat := GL.blank 3 3]} None None ∅ 1 (λ _, 0%Q) 0.

(** A 2 × 2 grid, all cells alive, with the draws of [Math.random] given. *)
Definition grid2 : GOL := mkGOL 0 1 60 (2, 2) (2, 2) None 0 1 0 100.

Definition env2 (rnd : nat → Q) : Env :=
  mkEnv true {[0%nat := mkTexture 2 2 (replicate 4 (RGBA 255 255 255 255)); 1%nat := GL.blank 2 2]}
        None None ∅ 1 rnd 0.

(** A 4 × 4 grid with no live cell. *)
Definition grid4 : GOL := mkGOL 0 1 60 (4, 4) (4, 4) None 0 1 0 100.

Definition env4 : Env :=
  mkEnv true {[0%nat := GL.blank 4 4; 1%nat := GL.blank 4 4]} None None ∅ 1 (λ _, 0%Q) 0.

(** The colours of a list of cells. *)
Definition paint (s : list bool) : list texel :=
  (λ b : bool, if b then RGBA 255 255 255 255 else RGBA 0 0 0 255) <$> s.

(** A 4 × 4 grid whose only live cell is [(0, 0)]. *)
Definition lone4 : Texture :=
  mkTexture 4 4 (RGBA 255 255 255 255 :: replicate 15 (RGBA 0 0 0 255)).

(** A 4 × 4 grid with a vertical blinker in column 1. *)
Definition blinker4 : Texture :=
  mkTexture 4 4 (paint [false; true; false; false;
                        false; true; false; false;
                        false; true; false; false;
                        false; false; false; false]).

Definition env4_blinker : Env :=
  mkEnv true {[0%nat := blinker4; 1%nat := GL.blank 4 4]} None None ∅ 1 (λ _, 0%Q) 0.

(** A 3 × 3 grid whose middle row is alive: on the torus every cell of the
    other two rows has three live neighbours. *)
Definition row3 : Texture :=
  mkTexture 3 3 (paint [false; false; false;
                        true; true; true;
                        false; false; false]).

Definition env3_row : Env :=
  mkEnv true {[0%nat := row3; 1%nat := GL.blank 3 3]} None None ∅ 1 (λ _, 0%Q) 0.

(** ** The timer at work *)

(** The callback of the interval, fired [n] times. *)
Fixpoint ticks (n : nat) (this : GOL) : M GOL :=
  match n with
  | O => ret this
  | S n => this <- tick this ;; ticks n this
  end.

(** ** The user interface of [js/gol.js] *)

(** What a mouse handler reads of its event: the pointer's page position, the
    button, and the offset and height jQuery reports for the target. *)
Record MouseEvent := mkMouseEvent {
  pageX : Q;
  pageY : Q;
  which : Z;
  offset_left : Q;
  offset_top : Q;
  target_height : Q
}.

(** [GOL.prototype.eventCoord] *)
Definition eventCoord (this : GOL) (event : MouseEvent) : Z * Z :=
  let border := 1%Q in
  let x := (pageX event - offset_left event - border)%Q in
  let y := (target_height event - (pageY event - offset_top event - border))%Q in
  (Qfloor (x / inject_Z (scale this)), Qfloor (y / inject_Z (scale this))).




(** A [Controller] with the simulation it drives.  [_save] is set by the
    [keyup] handler on the document, so it outlives the controller. *)
Record Controller := mkController {
  gol : GOL;
  drag : option Z;
  _save : option (list Z)
}.

Definition with_gol (g : GOL) (c : Controller) : Controller :=
  mkController g (drag c) (_save c).
Definition with_drag (d : option Z) (c : Controller) : Controller :=
  mkController (gol c) d (_save c).
Definition with_save (s : option (list Z)) (c : Controller) : Controller :=
  mkController (gol c) (drag c) s.

(** [function Controller(gol)], up to the registration of the handlers;
    [saved] is what the document holds in [_save]. *)
Definition new_Controller (gol : GOL) (saved : option (list Z)) : M Controller :=
  gol <- setRandom None gol ;;
  gol <- draw gol ;;
  gol <- start gol ;;
  ret (mkController gol None saved).

(** The [mousedown] handler. *)
Definition mousedown (event : MouseEvent) (c : Controller) : M Controller :=
  let c := with_drag (Some (which event)) c in
  let pos := eventCoord (gol c) event in
  g <- poke pos.1 pos.2 (bool_decide (drag c = Some 1)) (gol c) ;;
  g <- draw g ;;
  ret (with_gol g c).

(** The [mouseup] handler. *)
Definition mouseup (c : Controller) : M Controller :=
  ret (with_drag None c).

(** [if (_this.drag)]: a button number other than 0. *)
Definition dragging (c : Controller) : bool :=
  match drag c with
  | Some b => negb (b =? 0)
  | None => false
  end.

(** The [mousemove] handler. *)
Definition mousemove (event : MouseEvent) (c : Controller) : M Controller :=
  if dragging c then
    let pos := eventCoord (gol c) event in
    g <- poke pos.1 pos.2 (bool_decide (drag c = Some 1)) (gol c) ;;
    g <- draw g ;;
    ret (with_gol g c)
  else ret c.

(** The two [keyup] cases that change the cell size: [delta] is -1 for the
    dash and 1 for the equals key, whose guards are [scalePower - 1 >= 0] and
    [scalePower + 1 <= 6]. *)
Definition resize (delta : Z) (c : Controller) : M Controller :=
  g <- stop (gol c) ;;
  g <- setEmpty g ;;
  newGol <- new_GOL (viewsize g) (mkConfig (Some (scalePower g + delta)) (Some (interval g))) ;;
  new_Controller newGol (_save c).

(** The [keyup] handler: [which] is the key code. *)
Definition keyup (which : Z) (shiftKey : bool) (c : Controller) : M Controller :=
  if which =? 82 then                     (* r *)
    g <- setRandom None (gol c) ;;
    g <- draw g ;;
    ret (with_gol g c)
  else if which =? 46 then                (* [delete] *)
    g <- setEmpty (gol c) ;;
    g <- draw g ;;
    ret (with_gol g c)
  else if which =? 32 then                (* [space] *)
    g <- toggle (gol c) ;;
    ret (with_gol g c)
  else if which =? 83 then                (* s *)
    if shiftKey then
      match _save c with
      | Some state => g <- set state (gol c) ;; ret (with_gol g c)
      | None => ret c
      end
    else
      state <- get (gol c) ;;
      ret (with_save (Some state) c)
  else if which =? 188 then               (* [comma] *)
    g <- key_comma (gol c) ;;
    ret (with_gol g c)
  else if which =? 190 then               (* [period] *)
    g <- key_period (gol c) ;;
    ret (with_gol g c)
  else if which =? 189 then               (* [dash] *)
    if 0 <=? scalePower (gol c) - 1 then resize (-1) c else ret c
  else if which =? 187 then               (* [equals] *)
    if scalePower (gol c) + 1 <=? 6 then resize 1 c else ret c
  else ret c.

(** [$(document).ready(...)]: the first simulation and its controller. *)
Definition ready (canvas : Z * Z) : M Controller :=
  gol <- new_GOL canvas (mkConfig (Some 2) (Some 60)) ;;
  new_Controller gol None.

(** What can happen on the page: the user's events, and the interval firing,
    which it does only while the simulation has a timer. *)
Inductive ui_event :=
  | MouseDown (event : MouseEvent)
  | MouseUp
  | MouseMove (event : MouseEvent)
  | KeyUp (which : Z) (shiftKey : bool)
  | Tick.

Definition handle (ev : ui_event) (c : Controller) : M Controller :=
  match ev with
  | MouseDown event => mousedown event c
  | MouseUp => mouseup c
  | MouseMove event => mousemove event c
  | KeyUp which shiftKey => keyup which shiftKey c
  | Tick =>
      match timer (gol c) with
      | Some _ => g <- tick (gol c) ;; ret (with_gol g c)
      | None => ret c
      end
  end.

Fixpoint handle_all (evs : list ui_event) (c : Controller) : M Controller :=
  match evs with
  | [] => ret c
  | ev :: rest => c <- handle ev c ;; handle_all rest c
  end.

(** The events that leave the cell size alone: all but the dash and the
    equals key. *)
Definition keeps_size (ev : ui_event) : bool :=
  match ev with
  | KeyUp which _ => negb ((which =? 189) || (which =? 187))
  | _ => true
  end.

(** The events that take no new snapshot: all but an unshifted [s]. *)
Definition keeps_snapshot (ev : ui_event) : bool :=
  match ev with
  | KeyUp which shiftKey => negb ((which =? 83) && negb shiftKey)
  | _ => true
  end.

(** What the page keeps true of its simulation: the context is there, the
    texture pair is sound, the only timer is the simulation's, the cell size
    is a power of two from 1 to 64 and the grid is the canvas divided by it.
    The sides of the canvas are multiples of 64, so that every cell size
    divides them. *)
Record sound (canvas : Z * Z) (this : GOL) (e : Env) : Prop := mksound {
  sound_webgl : webgl e = true;
  sound_canvas : 0 ≤ canvas.1 ∧ 0 ≤ canvas.2 ∧ (64 | canvas.1) ∧ (64 | canvas.2);
  sound_wf : wf this e;
  sound_scheduled : scheduled this e;
  sound_power : 0 ≤ scalePower this ≤ 6;
  sound_scale : scale this = 2 ^ scalePower this;
  sound_view : viewsize this = canvas;
  sound_state : statesize this = (canvas.1 `div` scale this, canvas.2 `div` scale this)
}.

Definition ui_inv (canvas : Z * Z) (c : Controller) (e : Env) : Prop :=
  sound canvas (gol c) e.

(** A method that keeps the page sound and the cell size. *)
Definition keeps (canvas : Z * Z) (m : GOL → M GOL) : Prop :=
  ∀ this e, sound canvas this e →
    ∃ this' e', m this e = Normal (this', e') ∧ sound canvas this' e'
                ∧ scalePower this' = scalePower this.

(** A page with a 64 × 64 canvas and cells of 64 pixels: a grid of one cell,
    stopped, with no snapshot. *)
Definition grid1 : GOL := mkGOL 6 64 60 (64, 64) (1, 1) None 0 1 0 100.

Definition env1 : Env :=
  mkEnv true {[0%nat := GL.blank 1 1; 1%nat := GL.blank 1 1]} None None ∅ 1 (λ _, 0%Q) 0.

Definition controller1 : Controller := mkController grid1 None None.



(** A clock that reads 5 at first and 9 from then on. *)
Definition clock59 : M float :=
  λ e, Normal (if (drawn e =? 0)%nat then 5%float else 9%float, with_drawn 1 e).

(** ** Timings

    [this.timings] is read and written by [timeFn] and [calcTimingsStats]
    only; they are modelled as functions on that object.  The clock readings
    and the samples are JavaScript numbers: binary64 floats. *)

Module Timing.

(** [this.timings]: the own keys of the object, in the order of
    [Object.keys], each with its array of samples. *)
Definition series : Type := list (string * list float).

(** [timings[name]] *)
Fixpoint samples (name : string) (timings : series) : option (list float) :=
  match timings with
  | [] => None
  | (k, l) :: rest => if decide (k = name) then Some l else samples name rest
  end.

(** [timings.hasOwnProperty(name)] *)
Definition hasOwnProperty (name : string) (timings : series) : bool :=
  bool_decide (is_Some (samples name timings)).

(** [timings[name].push(v)] *)
Fixpoint push (name : string) (v : float) (timings : series) : series :=
  match timings with
  | [] => []
  | (k, l) :: rest =>
      if decide (k = name) then (k, l ++ [v]) :: rest else (k, l) :: push name v rest
  end.

(** A string of decimal digits only (the empty string included). *)
Fixpoint digits (s : string) : bool :=
  match s with
  | EmptyString => true
  | String a rest =>
      (48 <=? Ascii.nat_of_ascii a)%nat && (Ascii.nat_of_ascii a <=? 57)%nat && digits rest
  end.

(** The names for which the object is a plain table: a new key goes after
    the keys already there, and [hasOwnProperty] stays the inherited method.
    An integer-like key would be listed before the other keys, ['__proto__']
    is no own key, and an own key ['hasOwnProperty'] hides the method
    [timeFn] calls.  The one name the code passes is ['step']. *)
Definition plain (name : string) : bool :=
  negb (digits name) && negb (String.eqb name "__proto__")
  && negb (String.eqb name "hasOwnProperty").

Section Clock.
(** [GOL.nowMillis()] reads [Date.now()]. *)
Variable nowMillis : M float.

(** [GOL.prototype.timeFn], for a plain [name] on a table of plain names:
    [fn] is the action, whose result stands for what it did to the object;
    [timings] is [this.timings]. *)
Definition timeFn {A} (name : string) (fn : M A) (timings : series) : M (A * series) :=
  beginTiming <- nowMillis ;;
  a <- fn ;;
  endTiming <- nowMillis ;;
  let timings := if hasOwnProperty name timings then timings else timings ++ [(name, [])] in
  let timings := push name (endTiming - beginTiming)%float timings in
  ret (a, timings).
End Clock.

(** [array.slice(start)] *)
Definition slice {A} (start : Z) (l : list A) : list A :=
  let len := Z.of_nat (length l) in
  let k := if start <? 0 then Z.max (len + start) 0 else Z.min start len in
  drop (Z.to_nat k) l.

(** [array.length] as a number. *)
Definition length_number {A} (l : list A) : float :=
  PrimFloat.of_uint63 (Uint63.of_Z (Z.of_nat (length l))).

(** One line of [GOL.prototype.calcTimingsStats]: the average of the last
    samples of a name. *)
Definition average (everyNSteps : Z) (l : list float) : float :=
  let timingsOverInterval := slice (- everyNSteps) l in
  let sum := foldl PrimFloat.add 0%float timingsOverInterval in
  let divisor := if (0 <? length timingsOverInterval)%nat
                 then length_number timingsOverInterval else 1%float in
  (sum / divisor)%float.

(** [GOL.prototype.calcTimingsStats]: the name and the average of each line
    of the statistics, in the order of [Object.keys(this.timings)]; the
    heading and the rendering into the page are left out. *)
Definition calcTimingsStats (everyNSteps : Z) (timings : series) : list (string * float) :=
  (λ kl, (kl.1, average everyNSteps kl.2)) <$> timings.

End Timing.

(** * Properties *)

(** ** Typed arrays *)

Section TypedArrays.
Implicit Types (a : list Z) (i j n : nat).

Lemma length_Uint8Array n : length (Uint8Array n) = n.
Proof. apply length_replicate. Qed.

Lemma length_store8 a i v : length (store8 a i v) = length a.
Proof. apply length_insert. Qed.

Lemma byte_at_Uint8Array n i : byte_at (Uint8Array n) i = 0.
Proof.
  unfold byte_at, Uint8Array.
  destruct (replicate n 0 !! i) as [v|] eqn:E; [|done].
  by apply lookup_replicate in E as [-> _].
Qed.

Lemma byte_at_store8_eq a i v : (i < length a)%nat → byte_at (store8 a i v) i = v `mod` 256.
Proof. intros. unfold byte_at, store8. by rewrite list_lookup_insert_eq. Qed.

Lemma byte_at_store8_ne a i j v : i ≠ j → byte_at (store8 a i v) j = byte_at a j.
Proof. intros. unfold byte_at, store8. by rewrite list_lookup_insert_ne. Qed.

Lemma store8_ge a i v : (length a ≤ i)%nat → store8 a i v = a.
Proof. intros. by apply list_insert_ge. Qed.

Lemma byte_at_lookup a i v : a !! i = Some v → byte_at a i = v.
Proof. unfold byte_at. by intros ->. Qed.

Lemma byte_at_ge a i : (length a ≤ i)%nat → byte_at a i = 0.
Proof. intros. unfold byte_at. by rewrite lookup_ge_None_2. Qed.

(** A loop that stores [f i] at every index [i < m] of a zeroed array. *)
Lemma foldl_store8_seq (f : nat → Z) n m :
  (m ≤ n)%nat →
  foldl (λ a i, store8 a i (f i)) (Uint8Array n) (seq 0 m)
  = ((λ i, f i `mod` 256) <$> seq 0 m) ++ replicate (n - m) 0.
Proof.
  induction m as [|m IH]; intros Hm.
  - simpl. by rewrite Nat.sub_0_r.
  - rewrite seq_S, foldl_app, IH by lia. simpl.
    rewrite fmap_app. simpl. unfold store8.
    replace (n - m)%nat with (S (n - S m)) by lia. simpl.
    rewrite <- (Nat.add_0_r m) at 1.
    replace m with (length ((λ i, f i `mod` 256) <$> seq 0 m)) at 1
      by (by rewrite length_fmap, length_seq).
    rewrite insert_app_r. simpl. by rewrite <- app_assoc.
Qed.

Lemma foldl_store8_full (f : nat → Z) n :
  foldl (λ a i, store8 a i (f i)) (Uint8Array n) (seq 0 n) = (λ i, f i `mod` 256) <$> seq 0 n.
Proof. rewrite foldl_store8_seq by lia. by rewrite Nat.sub_diag, app_nil_r. Qed.
End TypedArrays.

(** ** Bits *)

Lemma testbit_bit_of (b : bool) (i : Z) : Z.testbit (bit_of b) i = b && (i =? 0).
Proof.
  destruct b; simpl.
  - destruct i; reflexivity.
  - apply Z.bits_0.
Qed.

Lemma land_1_testbit (x : Z) : Z.land x 1 = bit_of (Z.testbit x 0).
Proof.
  change 1 with (Z.ones 1) at 1. rewrite Z.land_ones by lia.
  change (2 ^ 1) with 2. rewrite <- Z.bit0_mod.
  by destruct (Z.testbit x 0).
Qed.

Lemma bit_of_range (b : bool) : 0 ≤ bit_of b < 256.
Proof. destruct b; simpl; lia. Qed.

Lemma truthy_bit_of (b : bool) : truthy (bit_of b) = b.
Proof. by destruct b. Qed.

(** ** The codec *)

Section CodecFacts.
Context {A : Type} `{Truthy A}.
Implicit Types (state : list A) (n m i j k : nat).

Lemma compact_body_length state a i : length (Codec.compact_body state a i) = length a.
Proof. apply length_store8. Qed.

(** After [m] rounds of the loop of [compact] on an array of [n] bytes, bit
    [k] of byte [j] is entry [8 j + k] of the state if that entry was
    reached, and is clear otherwise. *)
Lemma compact_loop state n m :
  let a := foldl (Codec.compact_body state) (Uint8Array n) (seq 0 m) in
  length a = n ∧
  ∀ j k, (j < n)%nat →
    Z.testbit (byte_at a j) (Z.of_nat k)
    = (k <? 8)%nat && (j * 8 + k <? m)%nat && truthy_at state (j * 8 + k).
Proof.
  induction m as [|m [IHlen IH]]; cbv zeta in *.
  - split; [apply length_Uint8Array|]. intros j k _. simpl.
    rewrite byte_at_Uint8Array, Z.bits_0.
    by rewrite andb_false_r.
  - rewrite seq_S, foldl_app. simpl.
    set (a := foldl (Codec.compact_body state) (Uint8Array n) (seq 0 m)) in *.
    split; [by rewrite compact_body_length|].
    intros j k Hj. unfold Codec.compact_body.
    pose proof (Nat.div_mod_eq m 8) as Hm.
    pose proof (Nat.mod_upper_bound m 8 ltac:(lia)) as Hs.
    set (ii := (m / 8)%nat) in *. set (shift := (m mod 8)%nat) in *.
    destruct (decide (ii = j)) as [->|Hne].
    + rewrite byte_at_store8_eq by lia.
      change 256 with (2 ^ 8).
      destruct (Nat.ltb_spec k 8) as [Hk|Hk].
      * rewrite Z.mod_pow2_bits_low by lia.
        rewrite Z.lor_spec, IH by done.
        rewrite Z.shiftl_spec by lia. rewrite testbit_bit_of.
        destruct (Nat.ltb_spec k 8); [|lia]. cbn [andb].
        destruct (decide (k = shift)) as [->|Hks].
        -- replace (Z.of_nat shift - Z.of_nat shift) with 0 by lia.
           replace (j * 8 + shift)%nat with m by lia.
           rewrite Nat.ltb_irrefl. cbn [andb orb].
           destruct (Nat.ltb_spec m (S m)); [|lia].
           by rewrite andb_true_r.
        -- replace (Z.of_nat k - Z.of_nat shift =? 0) with false by (symmetry; apply Z.eqb_neq; lia).
           rewrite andb_false_r, orb_false_r.
           destruct (Nat.ltb_spec (j * 8 + k) m), (Nat.ltb_spec (j * 8 + k) (S m)); try lia; done.
      * rewrite Z.mod_pow2_bits_high by lia. done.
    + rewrite byte_at_store8_ne by done. rewrite IH by done.
      destruct (Nat.ltb_spec k 8) as [Hk|Hk]; [|done]. cbn [andb].
      destruct (Nat.ltb_spec (j * 8 + k) m), (Nat.ltb_spec (j * 8 + k) (S m)); try lia; try done.
Qed.

Lemma compact_length state : length (Codec.compact state) = (length state / 8)%nat.
Proof. apply (compact_loop state). Qed.

Lemma compact_testbit state j k :
  (j < length state / 8)%nat → (k < 8)%nat →
  Z.testbit (byte_at (Codec.compact state) j) (Z.of_nat k) = truthy_at state (j * 8 + k).
Proof.
  intros Hj Hk. unfold Codec.compact.
  destruct (compact_loop state (length state / 8) (length state)) as [_ Hb].
  rewrite Hb by done.
  pose proof (Nat.div_mod_eq (length state) 8).
  destruct (Nat.ltb_spec k 8); [|lia].
  destruct (Nat.ltb_spec (j * 8 + k) (length state)); [done|lia].
Qed.

Lemma compact_high_bits state j k :
  (8 ≤ k)%nat → Z.testbit (byte_at (Codec.compact state) j) (Z.of_nat k) = false.
Proof.
  intros Hk. destruct (decide (j < length state / 8)%nat) as [Hj|Hj].
  - unfold Codec.compact.
    destruct (compact_loop state (length state / 8) (length state)) as [_ Hb].
    rewrite Hb by done.
    destruct (Nat.ltb_spec k 8); [lia|done].
  - rewrite byte_at_ge, Z.bits_0; [done|]. rewrite compact_length. lia.
Qed.
End CodecFacts.

Lemma expand_unfold (buffer : list Z) :
  Codec.expand buffer
  = (λ i, bit_of (Z.testbit (byte_at buffer (i / 8)) (Z.of_nat (i mod 8)))) <$> seq 0 (length buffer * 8).
Proof.
  unfold Codec.expand, Codec.expand_body. simpl.
  rewrite (foldl_store8_full (λ i, Z.land (Z.shiftr (byte_at buffer (i / 8)) (Z.of_nat (i mod 8))) 1)).
  apply list_fmap_ext. intros _ i _.
  rewrite land_1_testbit, Z.shiftr_spec by lia. simpl.
  apply Z.mod_small, bit_of_range.
Qed.

Lemma expand_length (buffer : list Z) : length (Codec.expand buffer) = (length buffer * 8)%nat.
Proof. by rewrite expand_unfold, length_fmap, length_seq. Qed.

Lemma expand_compact_lookup {A} `{Truthy A} (state : list A) (i : nat) :
  (i < length state / 8 * 8)%nat →
  Codec.expand (Codec.compact state) !! i = Some (bit_of (truthy_at state i)).
Proof.
  intros Hi. rewrite expand_unfold, compact_length, list_lookup_fmap.
  rewrite lookup_seq_lt by done. cbn [fmap option_fmap option_map Nat.add].
  pose proof (Nat.div_mod_eq i 8). pose proof (Nat.mod_upper_bound i 8 ltac:(lia)).
  assert (i / 8 < length state / 8)%nat by (apply Nat.Div0.div_lt_upper_bound; lia).
  rewrite compact_testbit by done.
  do 3 f_equal. lia.
Qed.

(** Two bytes, checked by evaluation. *)
Example compact_16 :
  Codec.compact [true; false; false; false; false; false; false; false;
                 false; true; true; false; false; false; false; true] = [1; 134].
Proof. reflexivity. Qed.

Example expand_2 :
  Codec.expand [1; 134] = [1; 0; 0; 0; 0; 0; 0; 0; 0; 1; 1; 0; 0; 0; 0; 1].
Proof. reflexivity. Qed.

(** ** Textures *)

Section TextureFacts.
Implicit Types (t : Texture) (p q : Z * Z) (v : texel).

Lemma in_bounds_spec t p :
  GL.in_bounds t p = true ↔ 0 ≤ p.1 < tex_width t ∧ 0 ≤ p.2 < tex_height t.
Proof. unfold GL.in_bounds. rewrite !andb_true_iff. lia. Qed.

Lemma write_width t p v : tex_width (GL.write t p v) = tex_width t.
Proof. unfold GL.write. by destruct (GL.in_bounds t p). Qed.

Lemma write_height t p v : tex_height (GL.write t p v) = tex_height t.
Proof. unfold GL.write. by destruct (GL.in_bounds t p). Qed.

Lemma write_length t p v : length (texels (GL.write t p v)) = length (texels t).
Proof. unfold GL.write. destruct (GL.in_bounds t p); [apply length_insert|done]. Qed.

Lemma write_full t p v : full t → full (GL.write t p v).
Proof. unfold full. by rewrite write_width, write_height, write_length. Qed.

Lemma write_in_bounds t p v q : GL.in_bounds (GL.write t p v) q = GL.in_bounds t q.
Proof. unfold GL.in_bounds. by rewrite write_width, write_height. Qed.

Lemma write_outside t p v : GL.in_bounds t p = false → GL.write t p v = t.
Proof. unfold GL.write. by intros ->. Qed.

Lemma index_lt t p :
  full t → GL.in_bounds t p = true → (GL.index t p < length (texels t))%nat.
Proof.
  intros (Hw & Hh & ->) Hp%in_bounds_spec. unfold GL.index. nia.
Qed.

Lemma index_inj t p q :
  GL.in_bounds t p = true → GL.in_bounds t q = true → GL.index t p = GL.index t q → p = q.
Proof.
  intros Hp%in_bounds_spec Hq%in_bounds_spec. unfold GL.index. intros Hi.
  destruct p as [x y], q as [x' y']; simpl in *.
  assert (y * tex_width t + x = y' * tex_width t + x') as E by nia.
  assert (y = y') by nia. f_equal; nia.
Qed.

Lemma texel_at_write_eq t p v :
  full t → GL.in_bounds t p = true → GL.texel_at (GL.write t p v) p = Some v.
Proof.
  intros Hf Hp. unfold GL.texel_at. rewrite write_in_bounds, Hp.
  unfold GL.write. rewrite Hp. simpl.
  apply list_lookup_insert_eq. by apply index_lt.
Qed.

Lemma texel_at_write_ne t p v q : p ≠ q → GL.texel_at (GL.write t p v) q = GL.texel_at t q.
Proof.
  intros Hne. unfold GL.texel_at. rewrite write_in_bounds.
  destruct (GL.in_bounds t q) eqn:Hq; [|done].
  unfold GL.write. destruct (GL.in_bounds t p) eqn:Hp; [|done]. simpl.
  apply list_lookup_insert_ne. intros E. apply Hne. by apply (index_inj t).
Qed.

Lemma texel_at_index t (i : nat) :
  full t → (i < length (texels t))%nat →
  GL.texel_at t (GL.rect_pos (tex_width t) (Z.of_nat i)) = texels t !! i.
Proof.
  intros (Hw & Hh & Hl) Hi. rewrite Hl in Hi.
  assert (0 < tex_width t) as Hpos by nia.
  unfold GL.texel_at, GL.rect_pos.
  pose proof (Z.mod_pos_bound (Z.of_nat i) (tex_width t) Hpos).
  pose proof (Z.div_mod (Z.of_nat i) (tex_width t) ltac:(lia)).
  assert (0 ≤ Z.of_nat i `div` tex_width t < tex_height t).
  { split; [apply Z.div_pos; lia|]. apply Z.div_lt_upper_bound; nia. }
  destruct (GL.in_bounds t _) eqn:Hb.
  - f_equal. unfold GL.index. simpl. nia.
  - exfalso. apply not_true_iff_false in Hb. apply Hb, in_bounds_spec. simpl. lia.
Qed.

Lemma rect_pos_index (w x y : Z) : 0 ≤ x < w → GL.rect_pos w (y * w + x) = (x, y).
Proof.
  intros Hx. unfold GL.rect_pos. f_equal.
  - rewrite Z.add_comm, Z.mod_add by lia. by apply Z.mod_small.
  - rewrite Z.add_comm, Z.div_add by lia. rewrite Z.div_small by done. lia.
Qed.

Section Pass.
Context {K : Type} (pos : K → Z * Z) (val : K → texel).

Lemma pass_snoc t ks k : pass pos val t (ks ++ [k]) = GL.write (pass pos val t ks) (pos k) (val k).
Proof. unfold pass. by rewrite foldl_app. Qed.

Lemma pass_width t ks : tex_width (pass pos val t ks) = tex_width t.
Proof.
  induction ks as [|k ks IH] using rev_ind; [done|].
  by rewrite pass_snoc, write_width.
Qed.

Lemma pass_height t ks : tex_height (pass pos val t ks) = tex_height t.
Proof.
  induction ks as [|k ks IH] using rev_ind; [done|].
  by rewrite pass_snoc, write_height.
Qed.

Lemma pass_length t ks : length (texels (pass pos val t ks)) = length (texels t).
Proof.
  induction ks as [|k ks IH] using rev_ind; [done|].
  by rewrite pass_snoc, write_length.
Qed.

Lemma pass_full t ks : full t → full (pass pos val t ks).
Proof. unfold full. by rewrite pass_width, pass_height, pass_length. Qed.

Lemma pass_in_bounds t ks q : GL.in_bounds (pass pos val t ks) q = GL.in_bounds t q.
Proof. unfold GL.in_bounds. by rewrite pass_width, pass_height. Qed.

Lemma pass_miss t ks q :
  (∀ k, k ∈ ks → pos k ≠ q) → GL.texel_at (pass pos val t ks) q = GL.texel_at t q.
Proof.
  induction ks as [|k ks IH] using rev_ind; intros Hq; [done|].
  rewrite pass_snoc, texel_at_write_ne.
  - apply IH. intros k' Hk'. apply Hq, elem_of_app. by left.
  - apply Hq, elem_of_app. right. by apply list_elem_of_singleton.
Qed.

Lemma pass_hit t ks k :
  full t → k ∈ ks → GL.in_bounds t (pos k) = true →
  (∀ k', k' ∈ ks → pos k' = pos k → val k' = val k) →
  GL.texel_at (pass pos val t ks) (pos k) = Some (val k).
Proof.
  intros Hf. induction ks as [|k1 ks IH] using rev_ind; intros Hk Hb Hv.
  - by apply elem_of_nil in Hk.
  - rewrite pass_snoc. destruct (decide (pos k1 = pos k)) as [E|Hne].
    + rewrite E, texel_at_write_eq.
      * f_equal. apply Hv; [|done].
        apply elem_of_app. right. by apply list_elem_of_singleton.
      * by apply pass_full.
      * by rewrite pass_in_bounds.
    + rewrite texel_at_write_ne by done. apply IH; [|done|].
      * apply elem_of_app in Hk as [?|Hk]; [done|].
        apply list_elem_of_singleton in Hk. congruence.
      * intros k' Hk'. apply Hv, elem_of_app. by left.
Qed.
End Pass.
End TextureFacts.

(** ** Uploads and read-back *)

Lemma sized_full w h t : sized w h t → full t.
Proof. intros (? & ? & <- & <- & ?). done. Qed.

Lemma texSubImage2D_pass source xoff yoff width height t :
  GL.texSubImage2D source xoff yoff width height t = t
  ∨ GL.texSubImage2D source xoff yoff width height t
    = pass (λ k, (xoff + (GL.rect_pos width k).1, yoff + (GL.rect_pos width k).2))
           (GL.unpack source) t (GL.rect width height).
Proof. unfold GL.texSubImage2D. destruct (_ && _); [by right|by left]. Qed.

Lemma texSubImage2D_sized source xoff yoff width height w h t :
  sized w h t → sized w h (GL.texSubImage2D source xoff yoff width height t).
Proof.
  intros Hs. destruct (texSubImage2D_pass source xoff yoff width height t) as [->| ->]; [done|].
  unfold sized in *. by rewrite pass_width, pass_height, pass_length.
Qed.

(** An upload of the whole texture replaces every texel. *)
Lemma texSubImage2D_whole source w h t (i : nat) :
  sized w h t → 4 * w * h ≤ Z.of_nat (length source) → (i < Z.to_nat (w * h))%nat →
  texels (GL.texSubImage2D source 0 0 w h t) !! i = Some (GL.unpack source (Z.of_nat i)).
Proof.
  intros Hs Hsrc Hi. pose proof Hs as (Hw & Hh & Etw & Eth & Hl).
  unfold GL.texSubImage2D.
  replace (_ && _) with true; cycle 1.
  { symmetry. rewrite !andb_true_iff, !Z.leb_le. lia. }
  set (pos := λ k : Z, (0 + (GL.rect_pos w k).1, 0 + (GL.rect_pos w k).2)).
  change (foldl _ t (GL.rect w h)) with (pass pos (GL.unpack source) t (GL.rect w h)).
  assert (∀ k, pos k = GL.rect_pos w k) as Hpos.
  { intros k. unfold pos. by destruct (GL.rect_pos w k). }
  rewrite <- (texel_at_index (pass pos _ t _) i).
  - rewrite pass_width, Etw, <- Hpos.
    apply pass_hit.
    + by eapply sized_full.
    + unfold GL.rect. apply elem_of_seqZ. lia.
    + rewrite Hpos, <- Etw. 
      destruct (GL.in_bounds t _) eqn:Hb; [done|].
      assert (GL.texel_at t (GL.rect_pos (tex_width t) (Z.of_nat i)) = None) as E
        by (unfold GL.texel_at; by rewrite Hb).
      rewrite texel_at_index in E; [|by eapply sized_full|lia].
      apply lookup_ge_None in E. lia.
    + intros k' Hk'. rewrite !Hpos. unfold GL.rect_pos. intros [= Em Ed].
      apply elem_of_seqZ in Hk'.
      assert (0 < w) by nia.
      pose proof (Z.div_mod k' w ltac:(lia)). pose proof (Z.div_mod (Z.of_nat i) w ltac:(lia)).
      rewrite Em, Ed, !Z.add_0_l in *. f_equal. lia.
  - apply pass_full. by eapply sized_full.
  - rewrite pass_length. lia.
Qed.

(** An upload of one texel is one write, and none outside of the texture. *)
Lemma texSubImage2D_one (r g b a : Z) x y t :
  GL.texSubImage2D [r; g; b; a] x y 1 1 t = GL.write t (x, y) (RGBA r g b a).
Proof.
  unfold GL.texSubImage2D. destruct (_ && _) eqn:Hc.
  - simpl. by rewrite !Z.add_0_r.
  - symmetry. apply write_outside. apply not_true_iff_false. intros Hb%in_bounds_spec.
    apply not_true_iff_false in Hc. apply Hc. simpl in *.
    rewrite !andb_true_iff, !Z.leb_le. lia.
Qed.

(** Four bytes per texel: byte [c] of chunk [i]. *)
Lemma lookup_bind_4 {X} (g : X → list Z) (l : list X) (i c : nat) :
  (∀ x, length (g x) = 4%nat) → (c < 4)%nat →
  (l ≫= g) !! (i * 4 + c)%nat = l !! i ≫= (λ x, g x !! c).
Proof.
  intros Hg Hc. revert i. induction l as [|x l IH]; intros i; [done|].
  rewrite bind_cons. destruct i as [|i].
  - simpl. rewrite lookup_app_l by (rewrite Hg; lia). done.
  - rewrite lookup_app_r by (rewrite Hg; lia). rewrite Hg.
    replace (S i * 4 + c - 4)%nat with (i * 4 + c)%nat by lia. apply IH.
Qed.

Lemma texel_bytes_length o : length (GL.texel_bytes o) = 4%nat.
Proof. by destruct o. Qed.

(** [get] reports the cells of the front texture and attaches it. *)
Lemma get_cells this e t :
  gpu e !! front this = Some t → sized (statesize this).1 (statesize this).2 t →
  get this e = Normal (cells t, with_attached (Some (front this)) e).
Proof.
  intros Ht Hs. pose proof Hs as (Hw & Hh & Etw & Eth & Hl).
  unfold get, bind, GL.attach, GL.readPixels, modify, gets, ret. simpl. rewrite Ht. simpl.
  f_equal. f_equal.
  set (w := (statesize this).1) in *. set (h := (statesize this).2) in *.
  set (rgba := _ ≫= _).
  rewrite (foldl_store8_full (λ i, if 128 <? byte_at rgba (i * 4) then 1 else 0)).
  apply list_eq. intros i. unfold cells. rewrite !list_lookup_fmap.
  destruct (decide (i < Z.to_nat (w * h))%nat) as [Hi|Hi].
  - rewrite lookup_seq_lt by done. simpl.
    destruct (texels t !! i) as [v|] eqn:Ev; [|apply lookup_ge_None in Ev; lia].
    simpl. f_equal.
    assert (byte_at rgba (i * 4) = red v) as ->.
    { unfold byte_at, rgba. rewrite <- (Nat.add_0_r (i * 4)).
      rewrite lookup_bind_4; [|intros; apply texel_bytes_length|lia].
      unfold GL.rect. rewrite lookup_seqZ_lt by lia. simpl.
      rewrite <- Etw. rewrite !Z.add_0_l.
      replace (_, _) with (GL.rect_pos (tex_width t) (Z.of_nat i)) by done.
      rewrite texel_at_index; [|by eapply sized_full|lia]. by rewrite Ev. }
    unfold alive. by destruct (128 <? red v).
  - rewrite lookup_seq_ge by lia. rewrite lookup_ge_None_2 by lia. done.
Qed.

Lemma cells_length t : length (cells t) = length (texels t).
Proof. unfold cells. by rewrite length_fmap. Qed.

Lemma cell_cells w h t x y :
  sized w h t → 0 ≤ x < w → 0 ≤ y < h →
  ∃ v, GL.texel_at t (x, y) = Some v ∧ cell w (cells t) x y = bit_of (alive v) ∧ v ∈ texels t.
Proof.
  intros Hs Hx Hy. pose proof Hs as (Hw & Hh & Etw & Eth & Hl).
  assert (Z.to_nat (y * w + x) < length (texels t))%nat as Hi by (rewrite Hl; nia).
  destruct (texels t !! Z.to_nat (y * w + x)) as [v|] eqn:Ev; [|apply lookup_ge_None in Ev; lia].
  exists v. split; [|split].
  - rewrite <- Ev, <- texel_at_index; [|by eapply sized_full|done].
    rewrite Z2Nat.id by nia. rewrite Etw, rect_pos_index by done. done.
  - unfold cell, cells, byte_at. by rewrite list_lookup_fmap, Ev.
  - by eapply list_elem_of_lookup_2.
Qed.

(** ** Whole-grid and single-cell updates *)

Lemma subset_run id source x y w h e :
  GL.subset id source x y w h e
  = Normal (tt, with_gpu (λ g, match g !! id with
                               | Some t => <[id := GL.texSubImage2D source x y w h t]> g
                               | None => g
                               end) (with_bound (Some id) e)).
Proof. reflexivity. Qed.

(** An upload to one texture leaves every other texture as it was. *)
Lemma subset_frame id source x y w h e r e' id' :
  GL.subset id source x y w h e = Normal (r, e') → id' ≠ id → gpu e' !! id' = gpu e !! id'.
Proof.
  rewrite subset_run. intros [= _ <-] Hne. simpl.
  destruct (gpu e !! id); [|done]. by rewrite lookup_insert_ne.
Qed.

Section SetFacts.
Context {A : Type} `{Truthy A}.
Implicit Types (state : list A) (n m i j c : nat).

Lemma set_body_length state rgba i : length (set_body state rgba i) = length rgba.
Proof. unfold set_body. by rewrite !length_store8. Qed.

Lemma set_body_other state rgba i k :
  (k < i * 4 ∨ i * 4 + 4 ≤ k)%nat → byte_at (set_body state rgba i) k = byte_at rgba k.
Proof. intros Hk. unfold set_body. rewrite !byte_at_store8_ne by lia. done. Qed.

Lemma set_body_same state rgba i c :
  (c < 4)%nat → (i * 4 + 4 ≤ length rgba)%nat →
  byte_at (set_body state rgba i) (i * 4 + c) = set_byte state i c.
Proof.
  intros Hc Hi. unfold set_body, set_byte.
  destruct c as [|[|[|[|c]]]]; [| | | |lia].
  - rewrite byte_at_store8_ne, byte_at_store8_eq by (rewrite ?length_store8; lia).
    by destruct (truthy_at state i).
  - rewrite !byte_at_store8_ne, byte_at_store8_eq by (rewrite ?length_store8; lia).
    by destruct (truthy_at state i).
  - rewrite !byte_at_store8_ne, byte_at_store8_eq by (rewrite ?length_store8; lia).
    by destruct (truthy_at state i).
  - rewrite byte_at_store8_eq by (rewrite ?length_store8; lia). done.
Qed.

(** After [m] rounds of the loop of [set] on an array for [n] cells. *)
Lemma set_loop state n m :
  length (foldl (set_body state) (Uint8Array (n * 4)) (seq 0 m)) = (n * 4)%nat ∧
  ∀ j c, (j < n)%nat → (c < 4)%nat →
    byte_at (foldl (set_body state) (Uint8Array (n * 4)) (seq 0 m)) (j * 4 + c)
    = if (j <? m)%nat then set_byte state j c else 0.
Proof.
  induction m as [|m [IHlen IH]].
  - split; [apply length_Uint8Array|]. intros j c _ _. simpl. apply byte_at_Uint8Array.
  - rewrite seq_S, foldl_app. cbn [foldl Nat.add].
    split; [by rewrite set_body_length|]. intros j c Hj Hc.
    destruct (decide (j = m)) as [->|Hne].
    + rewrite set_body_same by lia. by destruct (Nat.ltb_spec m (S m)); [|lia].
    + rewrite set_body_other by lia. rewrite IH by done.
      destruct (Nat.ltb_spec j m), (Nat.ltb_spec j (S m)); done || lia.
Qed.

Lemma set_loop_unpack state n j :
  (j < n)%nat →
  GL.unpack (foldl (set_body state) (Uint8Array (n * 4)) (seq 0 (length state))) (Z.of_nat j)
  = if truthy_at state j then RGBA 255 255 255 255
    else if (j <? length state)%nat then RGBA 0 0 0 255 else RGBA 0 0 0 0.
Proof.
  intros Hj. destruct (set_loop state n (length state)) as [_ Hb].
  unfold GL.unpack. replace (Z.to_nat (4 * Z.of_nat j)) with (j * 4)%nat by lia.
  rewrite <- (Nat.add_0_r (j * 4)) at 1. rewrite !Hb by lia.
  unfold set_byte. cbn [Nat.eqb].
  destruct (Nat.ltb_spec j (length state)) as [Hlt|Hge].
  - by destruct (truthy_at state j).
  - unfold truthy_at. by rewrite lookup_ge_None_2.
Qed.

(** [set] completes and replaces the front texture: cell [i] is alive when
    [state[i]] is truthy, dead when it is falsy or absent. *)
Lemma set_front state this e t :
  gpu e !! front this = Some t → sized (statesize this).1 (statesize this).2 t →
  ∃ t', set state this e
        = Normal (this, with_gpu (λ g, <[front this := t']> g) (with_bound (Some (front this)) e))
    ∧ sized (statesize this).1 (statesize this).2 t' ∧ binary t'
    ∧ cells t' = (λ i, bit_of (truthy_at state i)) <$> seq 0 (Z.to_nat ((statesize this).1 * (statesize this).2)).
Proof.
  intros Ht Hs. pose proof Hs as (Hw & Hh & Etw & Eth & Hl).
  set (w := (statesize this).1) in *. set (h := (statesize this).2) in *.
  set (n := Z.to_nat (w * h)).
  set (rgba := foldl (set_body state) (Uint8Array (n * 4)) (seq 0 (length state))).
  exists (GL.texSubImage2D rgba 0 0 w h t).
  assert (Z.to_nat (w * h * 4) = (n * 4)%nat) as En by lia.
  assert (∀ i, (i < n)%nat →
    texels (GL.texSubImage2D rgba 0 0 w h t) !! i = Some (GL.unpack rgba (Z.of_nat i))) as Hlook.
  { intros i Hi. apply texSubImage2D_whole; [done| |done].
    unfold rgba. destruct (set_loop state n (length state)) as [-> _]. lia. }
  pose proof (texSubImage2D_sized rgba 0 0 w h w h t Hs) as Hs'.
  pose proof Hs' as (_ & _ & _ & _ & Hl').
  split; [|split; [done|split]].
  - unfold set, bind, ret. fold w h. rewrite En. fold rgba.
    rewrite subset_run. unfold with_gpu. simpl. by rewrite Ht.
  - apply Forall_lookup. intros i v Hv.
    assert (i < n)%nat as Hi by (apply lookup_lt_Some in Hv; lia).
    rewrite Hlook in Hv by done. injection Hv as <-.
    unfold rgba. rewrite set_loop_unpack by done. simpl.
    destruct (truthy_at state i); [by right|]. destruct (_ <? _)%nat; by left.
  - apply list_eq. intros i. unfold cells. rewrite !list_lookup_fmap.
    destruct (decide (i < n)%nat) as [Hi|Hi].
    + rewrite Hlook, lookup_seq_lt by done. simpl. do 2 f_equal.
      unfold rgba. rewrite set_loop_unpack by done. simpl.
      destruct (truthy_at state i); [done|]. by destruct (_ <? _)%nat.
    + rewrite lookup_seq_ge by lia. rewrite lookup_ge_None_2 by lia. done.
Qed.
End SetFacts.

(** [poke] completes and writes one texel of the front texture. *)
Lemma poke_front x y state this e t :
  gpu e !! front this = Some t →
  poke x y state this e
  = Normal (this, with_gpu (λ g, <[front this := GL.write t (x, y)
                                     (if state then RGBA 255 255 255 255 else RGBA 0 0 0 255)]> g)
                           (with_bound (Some (front this)) e)).
Proof.
  intros Ht. unfold poke, bind, ret. rewrite subset_run. unfold with_gpu. simpl. rewrite Ht.
  destruct state; simpl; by rewrite texSubImage2D_one.
Qed.

(** [poke] completes also when there is no front texture. *)
Lemma poke_completes x y state this e : ∃ e', poke x y state this e = Normal (this, e').
Proof. unfold poke, bind, ret. rewrite subset_run. eauto. Qed.

Lemma set_completes {A} `{Truthy A} (state : list A) this e : ∃ e', set state this e = Normal (this, e').
Proof. unfold set, bind, ret. rewrite subset_run. eauto. Qed.

(** ** The loop of [setRandom] *)

Lemma foldl_ext_in {X Y} (f g : X → Y → X) (l : list Y) (a : X) :
  (∀ a i, i ∈ l → f a i = g a i) → foldl f a l = foldl g a l.
Proof.
  revert a. induction l as [|i l IH]; intros a Hfg; [done|].
  simpl. rewrite Hfg by left. apply IH. intros a' j Hj. apply Hfg. by right.
Qed.

Lemma random_loop (f : Q → Z) (a : list Z) (s m : nat) (e : Env) :
  for_each (λ rand i, x <- Math_random ;; ret (store8 rand i (f x))) a (seq s m) e
  = Normal (foldl (λ rand i, store8 rand i (f (random e (drawn e + (i - s))))) a (seq s m),
            with_drawn (drawn e + m) e).
Proof.
  revert s a e. induction m as [|m IH]; intros s a e.
  - simpl. unfold ret, with_drawn. rewrite Nat.add_0_r. by destruct e.
  - cbn [seq for_each foldl]. unfold bind at 1. unfold Math_random, bind, ret.
    rewrite IH. f_equal. f_equal.
    + simpl. rewrite Nat.sub_diag, Nat.add_0_r.
      apply foldl_ext_in. intros rand i Hi%elem_of_seq.
      do 3 f_equal. lia.
    + unfold with_drawn. simpl. f_equal. lia.
Qed.

(** [setRandom] is [set] on the outcomes of the next draws. *)
Lemma setRandom_unfold p this e :
  setRandom p this e
  = bind (set ((λ i, bit_of (Qltb (random e (drawn e + i)) (default (1 # 2)%Q p)))
               <$> seq 0 (Z.to_nat ((statesize this).1 * (statesize this).2))) this)
         (λ _, ret this)
         (with_drawn (drawn e + Z.to_nat ((statesize this).1 * (statesize this).2)) e).
Proof.
  unfold setRandom. unfold bind at 1.
  rewrite (random_loop (λ x, if Qltb x (default (1 # 2)%Q p) then 1 else 0)).
  rewrite (foldl_store8_full (λ i, if Qltb (random e (drawn e + (i - 0))) (default (1 # 2)%Q p) then 1 else 0)).
  f_equal. f_equal. apply list_fmap_ext. intros _ i _. simpl.
  rewrite Nat.sub_0_r. by destruct (Qltb _ _).
Qed.

(** ** Sampling *)

Lemma half_div (n w : Z) : 0 < w → (2 * n + 1) `div` (2 * w) = n `div` w.
Proof.
  intros Hw. symmetry. apply (Z.div_unique _ _ _ (2 * (n `mod` w) + 1)).
  - left. pose proof (Z.mod_pos_bound n w Hw). lia.
  - pose proof (Z.div_mod n w ltac:(lia)). lia.
Qed.

Lemma half_floor (r w : Z) : 0 < w → ((2 * r + 1) * w) `div` (2 * w) = r.
Proof.
  intros Hw. symmetry. apply (Z.div_unique _ _ _ w); lia.
Qed.

Lemma wrap_nearest (w x dx : Z) :
  0 < w →
  Qfloor (Shader.repeat_wrap ((inject_Z x + (1 # 2) + inject_Z dx) / inject_Z w) * inject_Z w)
  = (x + dx) `mod` w.
Proof.
  intros Hw. destruct w as [|p|p]; try lia.
  unfold Shader.repeat_wrap, Qdiv, Qinv, inject_Z, Qminus, Qopp, Qmult, Qfloor.
  repeat (unfold Qplus; cbn [Qnum Qden]).
  rewrite !Pos2Z.inj_mul. change (Z.pos 1) with 1. change (Z.pos 2) with 2.
  set (W := Z.pos p) in *.
  replace (((x * 2 + 1 * 1) * 1 + dx * (1 * 2)) * 1) with (2 * (x + dx) + 1) by ring.
  replace (1 * 2 * 1 * W) with (2 * W) by ring.
  rewrite half_div by done.
  pose proof (Z.div_mod (x + dx) W ltac:(lia)) as Hdm.
  replace ((2 * (x + dx) + 1) * 1 + - (x + dx) `div` W * (2 * W))
    with (2 * ((x + dx) `mod` W) + 1) by lia.
  replace (2 * W * 1 * 1) with (2 * W) by ring.
  by apply half_floor.
Qed.

(** What the shader reads at an offset: the 0/1 value of the cell at the
    wrapped position. *)
Lemma pow2_spec (n : Z) : Shader.pow2 n = true ↔ ∃ a, 0 ≤ a ∧ n = 2 ^ a.
Proof.
  unfold Shader.pow2. rewrite andb_true_iff, Z.ltb_lt, Z.eqb_eq. split.
  - intros [Hn E]. exists (Z.log2 n). split; [apply Z.log2_nonneg|done].
  - intros (a & Ha & ->). split; [by apply Z.pow_pos_nonneg|].
    by rewrite Z.log2_pow2.
Qed.

Lemma complete_sized w h t :
  sized w h t → Shader.complete t = Shader.pow2 w && Shader.pow2 h.
Proof. intros (_ & _ & Ew & Eh & _). unfold Shader.complete. by rewrite Ew, Eh. Qed.

Lemma nearest_torus t w h x y dx dy :
  sized w h t → Shader.complete t = true → 0 ≤ x < w → 0 ≤ y < h →
  Shader.nearest t (Shader.vdiv (Shader.vadd (Shader.frag_coord (x, y)) (inject_Z dx, inject_Z dy))
                                (inject_Z w, inject_Z h))
  = Some ((x + dx) `mod` w, (y + dy) `mod` h).
Proof.
  intros (Hw & Hh & Etw & Eth & Hl) Hc Hx Hy.
  unfold Shader.nearest, Shader.vdiv, Shader.vadd, Shader.frag_coord. rewrite Hc.
  cbn [fst snd]. rewrite Etw, Eth, !wrap_nearest by lia. done.
Qed.

Lemma get_torus t w h x y dx dy :
  sized w h t → Shader.complete t = true → binary t → 0 ≤ x < w → 0 ≤ y < h →
  Shader.get t (inject_Z w, inject_Z h) (Shader.frag_coord (x, y)) (inject_Z dx, inject_Z dy)
  = cell w (cells t) ((x + dx) `mod` w) ((y + dy) `mod` h).
Proof.
  intros Hs Hc Hb Hx Hy. pose proof Hs as (Hw & Hh & Etw & Eth & Hl).
  unfold Shader.get, Shader.texture2D. rewrite (nearest_torus t w h) by done.
  cbn [mbind option_bind].
  destruct (cell_cells w h t ((x + dx) `mod` w) ((y + dy) `mod` h) Hs) as (v & -> & -> & Hv).
  { apply Z.mod_pos_bound. lia. }
  { apply Z.mod_pos_bound. lia. }
  cbn [Shader.vr]. unfold alive.
  unfold binary in Hb. rewrite Forall_forall in Hb.
  destruct (Hb v Hv) as [-> | ->]; reflexivity.
Qed.

(** An incomplete texture reads as dead cells everywhere. *)
Lemma get_incomplete t scale coord offset :
  Shader.complete t = false → Shader.get t scale coord offset = 0.
Proof.
  intros Hc. unfold Shader.get, Shader.texture2D, Shader.nearest. by rewrite Hc.
Qed.

(** The colour the shader gives a cell: the rule applied to the cell and its
    eight neighbours on the torus. *)
Lemma main_rule t w h x y :
  sized w h t → Shader.complete t = true → binary t → 0 ≤ x < w → 0 ≤ y < h →
  Shader.to_texel (Shader.main t (inject_Z w, inject_Z h) (Shader.frag_coord (x, y)))
  = if (liveNeighbors w h (cells t) x y =? 3)
       || ((cell w (cells t) x y =? 1) && (liveNeighbors w h (cells t) x y =? 2))
    then RGBA 255 255 255 255 else RGBA 0 0 0 255.
Proof.
  intros Hs Hc Hb Hx Hy. unfold Shader.main, Shader.sumNhbrs, Shader.centre, liveNeighbors.
  change (-1)%Q with (inject_Z (-1)). change 0%Q with (inject_Z 0). change 1%Q with (inject_Z 1).
  rewrite !(get_torus t w h) by done.
  rewrite !Z.add_0_r, (Z.mod_small x w), (Z.mod_small y h) by lia.
  destruct (_ || _); reflexivity.
Qed.

(** From an incomplete texture the shader computes a dead cell. *)
Lemma main_incomplete t scale coord :
  Shader.complete t = false →
  Shader.to_texel (Shader.main t scale coord) = RGBA 0 0 0 255.
Proof.
  intros Hc. unfold Shader.main, Shader.sumNhbrs, Shader.centre.
  rewrite !get_incomplete by done. reflexivity.
Qed.

(** ** The pass of [step] *)

(** While the sampled texture is not the target, the fragments computed so
    far change the target only, and each is computed from the same source. *)
Lemma shade_pass w h e s d src dst ks :
  bound e = Some s → attached e = Some d → s ≠ d →
  gpu e !! s = Some src → gpu e !! d = Some dst →
  foldl (Draw.shade w (w, h)) e ks
  = with_gpu (λ g, <[d := pass (GL.rect_pos w) (shaded w h src) dst ks]> g) e.
Proof.
  intros Hbound Hatt Hne. revert e dst Hbound Hatt.
  induction ks as [|k ks IH]; intros e dst Hbound Hatt Hsrc Hdst.
  - simpl. destruct e. unfold with_gpu. simpl in *. f_equal. by rewrite insert_id.
  - cbn [foldl].
    assert (Draw.shade w (w, h) e k
            = with_gpu (λ g, <[d := GL.write dst (GL.rect_pos w k) (shaded w h src k)]> g) e) as ->.
    { unfold Draw.shade. rewrite Hbound, Hatt. simpl. rewrite Hsrc.
      unfold with_gpu. by rewrite Hdst. }
    rewrite (IH _ (GL.write dst (GL.rect_pos w k) (shaded w h src k))); simpl; try done.
    + unfold with_gpu. simpl. f_equal. by rewrite insert_insert_eq.
    + by rewrite lookup_insert_ne.
    + by rewrite lookup_insert_eq.
Qed.

Lemma next_texture_sized w h src dst : sized w h dst → sized w h (next_texture w h src dst).
Proof.
  unfold sized, next_texture. by rewrite pass_width, pass_height, pass_length.
Qed.

Lemma next_texture_lookup w h src dst (i : nat) :
  sized w h dst → (i < Z.to_nat (w * h))%nat →
  texels (next_texture w h src dst) !! i = Some (shaded w h src (Z.of_nat i)).
Proof.
  intros Hs Hi. pose proof Hs as (Hw & Hh & Etw & Eth & Hl).
  pose proof (next_texture_sized w h src dst Hs) as Hs'.
  pose proof Hs' as (_ & _ & Etw' & _ & Hl').
  rewrite <- texel_at_index; [|by eapply sized_full|lia].
  rewrite Etw'. unfold next_texture. apply pass_hit.
  - by eapply sized_full.
  - unfold GL.rect. apply elem_of_seqZ. lia.
  - destruct (GL.in_bounds dst _) eqn:Hb; [done|].
    assert (GL.texel_at dst (GL.rect_pos (tex_width dst) (Z.of_nat i)) = None) as E
      by (unfold GL.texel_at; by rewrite Etw, Hb).
    rewrite texel_at_index in E; [|by eapply sized_full|lia].
    apply lookup_ge_None in E. lia.
  - intros k' Hk'. unfold GL.rect_pos. intros [= Em Ed].
    apply elem_of_seqZ in Hk'. assert (0 < w) by nia.
    pose proof (Z.div_mod k' w ltac:(lia)) as E1.
    pose proof (Z.div_mod (Z.of_nat i) w ltac:(lia)) as E2.
    rewrite Em, Ed in E1. f_equal. lia.
Qed.

Lemma shaded_rule w h src x y :
  sized w h src → Shader.complete src = true → binary src → 0 ≤ x < w → 0 ≤ y < h →
  shaded w h src (y * w + x)
  = if (liveNeighbors w h (cells src) x y =? 3)
       || ((cell w (cells src) x y =? 1) && (liveNeighbors w h (cells src) x y =? 2))
    then RGBA 255 255 255 255 else RGBA 0 0 0 255.
Proof.
  intros. unfold shaded. rewrite rect_pos_index by done. by apply main_rule.
Qed.

Lemma shaded_incomplete w h src k :
  Shader.complete src = false → shaded w h src k = RGBA 0 0 0 255.
Proof. intros. unfold shaded. by apply main_incomplete. Qed.

Lemma next_texture_binary w h src dst :
  sized w h src → binary src → sized w h dst → binary (next_texture w h src dst).
Proof.
  intros Hsrc Hb Hdst. apply Forall_lookup. intros i v Hv.
  pose proof (next_texture_sized w h src dst Hdst) as (Hw & Hh & _ & _ & Hl).
  assert (i < Z.to_nat (w * h))%nat as Hi by (apply lookup_lt_Some in Hv; lia).
  rewrite next_texture_lookup in Hv by done. injection Hv as <-.
  destruct (Shader.complete src) eqn:Hc; [|rewrite shaded_incomplete by done; by left].
  assert (0 < w) by nia.
  pose proof (Z.div_mod (Z.of_nat i) w ltac:(lia)) as E.
  pose proof (Z.mod_pos_bound (Z.of_nat i) w ltac:(lia)).
  assert (0 ≤ Z.of_nat i `div` w < h).
  { split; [apply Z.div_pos; lia|apply Z.div_lt_upper_bound; nia]. }
  replace (Z.of_nat i) with (Z.of_nat i `div` w * w + Z.of_nat i `mod` w) by lia.
  rewrite shaded_rule by done. destruct (_ || _); [by right|by left].
Qed.

Lemma next_texture_cell w h src dst x y :
  sized w h src → Shader.complete src = true → binary src → sized w h dst →
  0 ≤ x < w → 0 ≤ y < h →
  cell w (cells (next_texture w h src dst)) x y
  = rule (cell w (cells src) x y) (liveNeighbors w h (cells src) x y).
Proof.
  intros Hsrc Hc Hb Hdst Hx Hy.
  unfold cell at 1. unfold cells at 1, byte_at. rewrite list_lookup_fmap.
  rewrite next_texture_lookup; [|done|nia]. rewrite Z2Nat.id by nia.
  rewrite shaded_rule by done. unfold rule. simpl. by destruct (_ || _).
Qed.

(** The pass over an incomplete texture leaves no live cell. *)
Lemma next_texture_incomplete w h src dst :
  Shader.complete src = false → sized w h dst →
  cells (next_texture w h src dst) = replicate (Z.to_nat (w * h)) 0.
Proof.
  intros Hc Hdst.
  pose proof (next_texture_sized w h src dst Hdst) as (Hw & Hh & _ & _ & Hl).
  apply list_eq. intros i. unfold cells. rewrite list_lookup_fmap.
  destruct (decide (i < Z.to_nat (w * h))%nat) as [Hi|Hi].
  - rewrite next_texture_lookup by done. rewrite shaded_incomplete by done.
    by rewrite lookup_replicate_2.
  - rewrite (lookup_ge_None_2 (texels _)) by lia.
    symmetry. apply lookup_ge_None_2. rewrite length_replicate. lia.
Qed.

(** [step] completes: it fills the back texture from the front texture and
    exchanges the two. *)
Lemma step_run this e tf tb :
  front this ≠ back this → gpu e !! front this = Some tf → gpu e !! back this = Some tb →
  step this e
  = Normal (with_back (front this) (with_front (back this) (with_numSteps (numSteps this + 1) this)),
            with_gpu (λ g, <[back this := next_texture (statesize this).1 (statesize this).2 tf tb]> g)
              (with_bound (Some (front this)) (with_attached (Some (back this)) e))).
Proof.
  intros Hne Hf Hb. unfold step, bind, GL.attach, GL.bind_texture, Draw.draw_gol, modify, swap, ret.
  cbn [front back statesize with_numSteps].
  f_equal. f_equal.
  destruct (statesize this) as [w h] eqn:Hsz. cbn [fst snd].
  by apply (shade_pass w h _ (front this) (back this) tf tb).
Qed.

(** ** The invariant of the texture pair *)

Lemma write_sized w h t p v : sized w h t → sized w h (GL.write t p v).
Proof. unfold sized. by rewrite write_width, write_height, write_length. Qed.

Lemma write_binary t p v : binary t → red v = 0 ∨ red v = 255 → binary (GL.write t p v).
Proof.
  intros Hb Hv. unfold GL.write. destruct (GL.in_bounds t p); [|done].
  unfold binary in *. simpl. apply Forall_insert; done.
Qed.

(** Replacing the front texture by one of the same kind keeps the invariant
    and the back texture. *)
Lemma wf_front_update this e b t' :
  wf this e → sized (statesize this).1 (statesize this).2 t' → binary t' →
  wf this (with_gpu (λ g, <[front this := t']> g) (with_bound b e)).
Proof.
  intros [Hne _ (tb & Hb & Hsb)] Hs' Hb'. split; [done| |].
  - exists t'. simpl. by rewrite lookup_insert_eq.
  - exists tb. simpl. by rewrite lookup_insert_ne.
Qed.

Lemma wf_step this e tf tb :
  wf this e → gpu e !! front this = Some tf → gpu e !! back this = Some tb →
  wf (with_back (front this) (with_front (back this) (with_numSteps (numSteps this + 1) this)))
     (with_gpu (λ g, <[back this := next_texture (statesize this).1 (statesize this).2 tf tb]> g)
        (with_bound (Some (front this)) (with_attached (Some (back this)) e))).
Proof.
  intros [Hne (tf' & Hf' & Hsf & Hbf) (tb' & Hb' & Hsb)] Hf Hb.
  assert (tf' = tf) as -> by congruence. assert (tb' = tb) as -> by congruence.
  split; simpl.
  - done.
  - eexists. rewrite lookup_insert_eq. split; [done|]. split.
    + by apply next_texture_sized.
    + by apply (next_texture_binary _ _ tf tb).
  - exists tf. by rewrite lookup_insert_ne.
Qed.

(** The constructor completes when WebGL is available and leaves a grid in
    which every cell is dead. *)
Lemma new_GOL_wf canvas config e :
  webgl e = true → 0 ≤ canvas.1 → 0 ≤ canvas.2 → 0 ≤ default 2 (config_scalePower config) →
  ∃ this e', new_GOL canvas config e = Normal (this, e') ∧ wf this e'
    ∧ timer this = None ∧ timers e' = timers e
    ∧ generation this e'
      = Some (replicate (Z.to_nat ((statesize this).1 * (statesize this).2)) 0).
Proof.
  intros Hgl Hw Hh Hsp. unfold new_GOL, bind, gets, ret, throw. rewrite Hgl. simpl.
  set (scale := 2 ^ default 2 (config_scalePower config)).
  assert (0 < scale) by (apply Z.pow_pos_nonneg; lia).
  set (w := canvas.1 `div` scale). set (h := canvas.2 `div` scale).
  assert (0 ≤ w) by (apply Z.div_pos; lia). assert (0 ≤ h) by (apply Z.div_pos; lia).
  set (f := fresh (dom (gpu e))).
  set (b := fresh (dom (<[f := GL.blank w h]> (gpu e)))).
  assert (f ≠ b) as Hne.
  { intros E. pose proof (is_fresh (dom (<[f := GL.blank w h]> (gpu e)))) as Hfr.
    fold b in Hfr. rewrite <- E in Hfr. apply Hfr. rewrite dom_insert. set_solver. }
  assert (sized w h (GL.blank w h)) as Hs.
  { unfold sized, GL.blank. simpl. by rewrite length_replicate. }
  eexists _, _. split; [done|]. split; [|split; [done|split; [done|]]].
  - split; simpl.
    + done.
    + exists (GL.blank w h). rewrite lookup_insert_ne, lookup_insert_eq by done.
      split; [done|split; [done|]]. unfold binary, GL.blank. simpl.
      apply Forall_replicate. by left.
    + exists (GL.blank w h). by rewrite lookup_insert_eq.
  - unfold generation. simpl. rewrite lookup_insert_ne, lookup_insert_eq by done. simpl.
    unfold cells, GL.blank. simpl. by rewrite fmap_replicate.
Qed.

(** ** The rule of one step (C1) *)

Lemma bit_of_1 (b : bool) : bit_of b = 1 ↔ b = true.
Proof. destruct b; simpl; split; done || lia. Qed.

(** C1: on a grid whose sides are powers of two, after one [step] a cell is
    alive in the new front generation exactly when it had 3 live neighbours
    in the prior front generation, or was alive there and had 2; every other
    cell is dead.  The generations are those [get] returns before and after
    the step, the neighbours those of the torus. *)
Theorem step_applies_rule (this : GOL) (e : Env) :
  wf this e →
  Shader.pow2 (statesize this).1 = true → Shader.pow2 (statesize this).2 = true →
  ∃ s e1 this' e' s' e2,
    get this e = Normal (s, e1) ∧ step this e = Normal (this', e')
    ∧ get this' e' = Normal (s', e2) ∧ wf this' e'
    ∧ ∀ x y, 0 ≤ x < (statesize this).1 → 0 ≤ y < (statesize this).2 →
        let w := (statesize this).1 in
        let n := liveNeighbors w (statesize this).2 s x y in
        (cell w s' x y = 1 ↔ n = 3 ∨ (cell w s x y = 1 ∧ n = 2))
        ∧ (cell w s' x y = 1 ∨ cell w s' x y = 0).
Proof.
  intros Hwf Hpw Hph. pose proof Hwf as [Hne (tf & Hf & Hsf & Hbf) (tb & Hb & Hsb)].
  set (w := (statesize this).1) in *. set (h := (statesize this).2) in *.
  assert (Shader.complete tf = true) as Hc by (by rewrite (complete_sized w h), Hpw, Hph).
  pose proof (wf_step this e tf tb Hwf Hf Hb) as Hwf'.
  eexists (cells tf), _, _, _, (cells (next_texture w h tf tb)), _.
  split; [by apply get_cells|]. split; [by apply step_run|]. split; [|split; [done|]].
  - apply get_cells; simpl.
    + by rewrite lookup_insert_eq.
    + by apply next_texture_sized.
  - intros x y Hx Hy. simpl. fold w h.
    rewrite next_texture_cell by done. unfold rule.
    split; [|destruct (_ || _); [by left|by right]].
    rewrite bit_of_1, orb_true_iff, andb_true_iff, !Z.eqb_eq. done.
Qed.

Lemma wf_env3 : wf grid3 env3.
Proof.
  split.
  - done.
  - exists lone3. split; [done|]. split; [by vm_compute|].
    unfold binary, lone3. simpl. repeat constructor; by (left + right).
  - exists (GL.blank 3 3). split; [done|]. by vm_compute.
Defined.

Lemma wf_env4_blinker : wf grid4 env4_blinker.
Proof.
  split.
  - done.
  - exists blinker4. split; [done|]. split; [by vm_compute|].
    unfold binary, blinker4, paint. simpl. repeat constructor; by (left + right).
  - exists (GL.blank 4 4). split; [done|]. by vm_compute.
Defined.

Lemma step_applies_rule_witness :
  (wf grid4 env4_blinker
   ∧ Shader.pow2 (statesize grid4).1 = true ∧ Shader.pow2 (statesize grid4).2 = true)
  ∧ ∃ s e1 this' e' s' e2,
    get grid4 env4_blinker = Normal (s, e1) ∧ step grid4 env4_blinker = Normal (this', e')
    ∧ get this' e' = Normal (s', e2) ∧ wf this' e'
    ∧ ∀ x y, 0 ≤ x < 4 → 0 ≤ y < 4 →
        let w := 4 in
        let n := liveNeighbors w 4 s x y in
        (cell w s' x y = 1 ↔ n = 3 ∨ (cell w s x y = 1 ∧ n = 2))
        ∧ (cell w s' x y = 1 ∨ cell w s' x y = 0).
Proof.
  split; [split; [exact wf_env4_blinker|by split]|].
  exact (step_applies_rule grid4 env4_blinker wf_env4_blinker eq_refl eq_refl).
Defined.

(** C1 as stated, for every grid, fails on a 3 × 3 grid: with the middle row
    alive, cell [(0, 0)] has exactly 3 live neighbours, and yet the step
    leaves it, and every other cell, dead. *)
Lemma step_off_power_of_two :
  generation grid3 env3_row = Some [0; 0; 0; 1; 1; 1; 0; 0; 0]
  ∧ liveNeighbors 3 3 [0; 0; 0; 1; 1; 1; 0; 0; 0] 0 0 = 3
  ∧ rule (cell 3 [0; 0; 0; 1; 1; 1; 0; 0; 0] 0 0)
         (liveNeighbors 3 3 [0; 0; 0; 1; 1; 1; 0; 0; 0] 0 0) = 1
  ∧ generation_after (step grid3) env3_row = Normal (Some [0; 0; 0; 0; 0; 0; 0; 0; 0]).
Proof. repeat split; by vm_compute. Qed.

(** A blinker flips and flips back; a block stays. *)
Example blinker_oscillates :
  let vertical := [false; true; false; false;
                   false; true; false; false;
                   false; true; false; false;
                   false; false; false; false] in
  generation_after (this <- set vertical grid4 ;; step this) env4
  = Normal (Some [0; 0; 0; 0;
                  1; 1; 1; 0;
                  0; 0; 0; 0;
                  0; 0; 0; 0])
  ∧ generation_after (this <- set vertical grid4 ;; this <- step this ;; step this) env4
    = Normal (Some (bit_of <$> vertical)).
Proof. split; by vm_compute. Qed.

Example block_is_still :
  let block := [false; false; false; false;
                false; true; true; false;
                false; true; true; false;
                false; false; false; false] in
  generation_after (this <- set block grid4 ;; this <- step this ;; step this) env4
  = Normal (Some (bit_of <$> block)).
Proof. by vm_compute. Qed.

(** ** Neighbours on the torus (C2) *)

(** C2: on a grid whose sides are powers of two, the texel the shader
    samples for the neighbour at offset [(dx, dy)] of cell [(x, y)] is
    [((x + dx) mod width, (y + dy) mod height)], what it reads there is that
    cell, and so the eight reads of [sumNhbrs] count the live cells around
    [(x, y)] on the torus; on the 4 × 4 grid whose only live cell is
    [(0, 0)], each of its eight neighbours, the ones on the opposite edges
    included, counts that cell once. *)
Theorem neighbours_wrap (t : Texture) (w h x y dx dy : Z) :
  sized w h t → Shader.pow2 w = true → Shader.pow2 h = true →
  0 ≤ x < w → 0 ≤ y < h →
  Shader.nearest t (Shader.vdiv (Shader.vadd (Shader.frag_coord (x, y)) (inject_Z dx, inject_Z dy))
                                (inject_Z w, inject_Z h))
  = Some ((x + dx) `mod` w, (y + dy) `mod` h)
  ∧ (binary t →
     Shader.get t (inject_Z w, inject_Z h) (Shader.frag_coord (x, y)) (inject_Z dx, inject_Z dy)
     = cell w (cells t) ((x + dx) `mod` w) ((y + dy) `mod` h))
  ∧ (binary t →
     Shader.sumNhbrs t (inject_Z w, inject_Z h) (Shader.frag_coord (x, y))
     = liveNeighbors w h (cells t) x y)
  ∧ (λ p, Shader.sumNhbrs lone4 (4, 4)%Q (Shader.frag_coord p))
      <$> [(3, 3); (3, 0); (3, 1); (0, 3); (0, 1); (1, 3); (1, 0); (1, 1)]
    = [1; 1; 1; 1; 1; 1; 1; 1].
Proof.
  intros Hs Hpw Hph Hx Hy.
  assert (Shader.complete t = true) as Hc by (by rewrite (complete_sized w h), Hpw, Hph).
  split; [|split; [|split]].
  - by apply nearest_torus.
  - intros Hb. by apply get_torus.
  - intros Hb. unfold Shader.sumNhbrs, liveNeighbors.
    change (-1)%Q with (inject_Z (-1)). change 0%Q with (inject_Z 0). change 1%Q with (inject_Z 1).
    rewrite !(get_torus t w h) by done. done.
  - by vm_compute.
Qed.

Lemma neighbours_wrap_witness :
  (sized 4 4 lone4 ∧ Shader.pow2 4 = true ∧ 0 ≤ 3 < 4)
  ∧ Shader.nearest lone4 (Shader.vdiv (Shader.vadd (Shader.frag_coord (3, 3)) (inject_Z 1, inject_Z 1))
                                      (inject_Z 4, inject_Z 4))
    = Some ((3 + 1) `mod` 4, (3 + 1) `mod` 4)
  ∧ (binary lone4 →
     Shader.get lone4 (inject_Z 4, inject_Z 4) (Shader.frag_coord (3, 3)) (inject_Z 1, inject_Z 1)
     = cell 4 (cells lone4) ((3 + 1) `mod` 4) ((3 + 1) `mod` 4))
  ∧ (binary lone4 →
     Shader.sumNhbrs lone4 (inject_Z 4, inject_Z 4) (Shader.frag_coord (3, 3))
     = liveNeighbors 4 4 (cells lone4) 3 3)
  ∧ (λ p, Shader.sumNhbrs lone4 (4, 4)%Q (Shader.frag_coord p))
      <$> [(3, 3); (3, 0); (3, 1); (0, 3); (0, 1); (1, 3); (1, 0); (1, 1)]
    = [1; 1; 1; 1; 1; 1; 1; 1].
Proof.
  assert (sized 4 4 lone4) as Hs by (by vm_compute).
  split; [split; [exact Hs|split; [reflexivity|lia]]|].
  apply (neighbours_wrap lone4 4 4 3 3 1 1 Hs eq_refl eq_refl); lia.
Defined.

(** C2 as stated fails on its own 3 × 3 grid: around the lone live cell
    [(0, 0)] each of the eight cells has one live neighbour on the torus, and
    the shader counts none. *)
Lemma neighbours_lost_on_3x3 :
  (λ p : Z * Z, liveNeighbors 3 3 (cells lone3) p.1 p.2)
    <$> [(2, 2); (2, 0); (2, 1); (0, 2); (0, 1); (1, 2); (1, 0); (1, 1)]
  = [1; 1; 1; 1; 1; 1; 1; 1]
  ∧ (λ p, Shader.sumNhbrs lone3 (3, 3)%Q (Shader.frag_coord p))
      <$> [(2, 2); (2, 0); (2, 1); (0, 2); (0, 1); (1, 2); (1, 0); (1, 1)]
    = [0; 0; 0; 0; 0; 0; 0; 0].
Proof. split; by vm_compute. Qed.

(** ** Double buffering (C3) *)

Lemma take_rect_pass this e tf tb n :
  front this ≠ back this → gpu e !! front this = Some tf → gpu e !! back this = Some tb →
  during_step this e n
  = with_gpu (λ g, <[back this := pass (GL.rect_pos (statesize this).1)
                                       (shaded (statesize this).1 (statesize this).2 tf) tb
                                       (take n (GL.rect (statesize this).1 (statesize this).2))]> g)
      (with_bound (Some (front this)) (with_attached (Some (back this)) e)).
Proof.
  intros Hne Hf Hb. unfold during_step.
  destruct (statesize this) as [w h]. cbn [fst snd].
  by apply (shade_pass w h _ (front this) (back this) tf tb).
Qed.

Lemma next_texture_texels w h src dst :
  sized w h dst →
  texels (next_texture w h src dst) = (λ i, shaded w h src (Z.of_nat i)) <$> seq 0 (Z.to_nat (w * h)).
Proof.
  intros Hs. pose proof (next_texture_sized w h src dst Hs) as (_ & _ & _ & _ & Hl).
  apply list_eq. intros i. rewrite list_lookup_fmap.
  destruct (decide (i < Z.to_nat (w * h))%nat) as [Hi|Hi].
  - rewrite next_texture_lookup, lookup_seq_lt by done. done.
  - rewrite lookup_seq_ge by lia. rewrite lookup_ge_None_2 by lia. done.
Qed.

(** C3: one [step] reads cells from the front texture only and writes the
    back texture only: after any number of fragments of the pass the front
    texture, and every texture but the back one, is as before the step; the
    texels written are computed from the front texture alone; and only then
    are the two exchanged, the former front texture becoming the back one
    with its content intact. *)
Theorem step_double_buffered (this : GOL) (e : Env) (tf tb : Texture) :
  front this ≠ back this →
  gpu e !! front this = Some tf → gpu e !! back this = Some tb →
  sized (statesize this).1 (statesize this).2 tb →
  (∀ n id, id ≠ back this → gpu (during_step this e n) !! id = gpu e !! id)
  ∧ (∀ n, generation this (during_step this e n) = generation this e)
  ∧ ∃ this' e',
      step this e = Normal (this', e')
      ∧ front this' = back this ∧ back this' = front this
      ∧ gpu e' = gpu (during_step this e (length (GL.rect (statesize this).1 (statesize this).2)))
      ∧ gpu e' !! back this' = Some tf
      ∧ (∀ id, id ≠ back this → gpu e' !! id = gpu e !! id)
      ∧ ∃ tn, gpu e' !! front this' = Some tn
          ∧ texels tn = (λ i, shaded (statesize this).1 (statesize this).2 tf (Z.of_nat i))
                        <$> seq 0 (Z.to_nat ((statesize this).1 * (statesize this).2)).
Proof.
  intros Hne Hf Hb Hsb.
  assert (∀ n id, id ≠ back this → gpu (during_step this e n) !! id = gpu e !! id) as Hmid.
  { intros n id Hid. rewrite (take_rect_pass this e tf tb) by done. simpl.
    by rewrite lookup_insert_ne. }
  split; [done|]. split.
  { intros n. unfold generation. by rewrite Hmid. }
  eexists _, _. split; [by apply (step_run this e tf tb)|]. simpl.
  split; [done|]. split; [done|]. split; [|split; [|split]].
  - rewrite (take_rect_pass this e tf tb) by done. simpl.
    by rewrite firstn_all.
  - by rewrite lookup_insert_ne.
  - intros id Hid. by rewrite lookup_insert_ne.
  - eexists. rewrite lookup_insert_eq. split; [done|]. by apply next_texture_texels.
Qed.

Lemma step_double_buffered_witness :
  (0%nat ≠ 1%nat ∧ gpu env3 !! 0%nat = Some lone3 ∧ gpu env3 !! 1%nat = Some (GL.blank 3 3)
   ∧ sized 3 3 (GL.blank 3 3))
  ∧ ∀ n, generation grid3 (during_step grid3 env3 n) = generation grid3 env3.
Proof.
  assert (sized 3 3 (GL.blank 3 3)) as Hs by (by vm_compute).
  split; [repeat split; done || lia|].
  apply (step_double_buffered grid3 env3 lone3 (GL.blank 3 3)); [done|reflexivity|reflexivity|exact Hs].
Defined.

(** ** The back texture under direct updates (C10) *)

Lemma set_frame {A} `{Truthy A} (state : list A) this e :
  front this ≠ back this →
  ∃ e', set state this e = Normal (this, e') ∧ gpu e' !! back this = gpu e !! back this
        ∧ drawn e' = drawn e ∧ random e' = random e.
Proof.
  intros Hne. unfold set, bind, ret.
  destruct (GL.subset _ _ _ _ _ _ e) as [[[] e']|] eqn:E; [|by rewrite subset_run in E].
  exists e'. split; [done|]. split; [by eapply subset_frame|].
  rewrite subset_run in E. by injection E as <-.
Qed.

(** C10: [set], [setRandom], [setEmpty] and [poke] write the front texture
    only: each completes, returns the object unchanged and leaves the texture
    that is the back buffer as it was. *)
Theorem updates_keep_back {A} `{Truthy A} (this : GOL) (e : Env)
    (state : list A) (p : option Q) (x y : Z) (alive_ : bool) :
  front this ≠ back this →
  (∃ e', set state this e = Normal (this, e') ∧ gpu e' !! back this = gpu e !! back this)
  ∧ (∃ e', setRandom p this e = Normal (this, e') ∧ gpu e' !! back this = gpu e !! back this)
  ∧ (∃ e', setEmpty this e = Normal (this, e') ∧ gpu e' !! back this = gpu e !! back this)
  ∧ (∃ e', poke x y alive_ this e = Normal (this, e') ∧ gpu e' !! back this = gpu e !! back this).
Proof.
  intros Hne. split; [|split; [|split]].
  - destruct (set_frame state this e Hne) as (e' & ? & ? & _). eauto.
  - rewrite setRandom_unfold. unfold bind, ret.
    match goal with |- context [set ?s this ?e0] =>
      destruct (set_frame s this e0 Hne) as (e' & -> & Hb & _) end.
    exists e'. split; [done|]. by rewrite Hb.
  - unfold setEmpty, bind, ret.
    match goal with |- context [set ?s this ?e0] =>
      destruct (set_frame s this e0 Hne) as (e' & -> & Hb & _) end.
    eauto.
  - unfold poke, bind, ret.
    destruct (GL.subset _ _ _ _ _ _ e) as [[[] e']|] eqn:E; [|by rewrite subset_run in E].
    exists e'. split; [done|]. by eapply subset_frame.
Qed.

Lemma updates_keep_back_witness :
  front grid3 ≠ back grid3
  ∧ ∃ e', poke 0 0 false grid3 env3 = Normal (grid3, e')
          ∧ gpu e' !! back grid3 = gpu env3 !! back grid3.
Proof.
  assert (front grid3 ≠ back grid3) as Hne by (simpl; lia).
  split; [exact Hne|].
  apply (updates_keep_back grid3 env3 [true] None 0 0 false Hne).
Defined.

(** ** [poke] outside of the grid (C6) *)




Lemma wf_env2 rnd : wf grid2 (env2 rnd).
Proof.
  split.
  - done.
  - eexists. split; [reflexivity|]. split; [by vm_compute|].
    unfold binary. simpl. repeat constructor; by right.
  - exists (GL.blank 2 2). split; [done|]. by vm_compute.
Defined.


(** ** [set] with any number of values (C7) *)

(** C7, as stated, fails: on a 2 × 2 grid whose cells are all alive, [set]
    with an array of one element completes and changes the front generation
    instead of failing with [SizeMismatch] and leaving it. *)
Lemma set_short_completes :
  generation grid2 (env2 (λ _, 0%Q)) = Some [1; 1; 1; 1]
  ∧ generation_after (set [true] grid2) (env2 (λ _, 0%Q)) = Normal (Some [1; 0; 0; 0]).
Proof. split; reflexivity. Qed.

Lemma fmap_truthy_at {A} `{Truthy A} (state : list A) :
  (λ i, bit_of (truthy_at state i)) <$> seq 0 (length state) = (λ v, bit_of (truthy v)) <$> state.
Proof.
  apply list_eq. intros i. rewrite !list_lookup_fmap.
  destruct (decide (i < length state)%nat) as [Hi|Hi].
  - rewrite lookup_seq_lt by done. unfold truthy_at. simpl.
    destruct (state !! i) as [v|] eqn:E; [done|]. apply lookup_ge_None in E. lia.
  - rewrite lookup_seq_ge by lia. rewrite lookup_ge_None_2 by lia. done.
Qed.

(** What [set] does to a well-formed grid. *)
Lemma set_overwrites {A} `{Truthy A} (values : list A) (this : GOL) (e : Env) :
  wf this e →
  ∃ e', set values this e = Normal (this, e') ∧ wf this e'
    ∧ generation this e'
      = Some ((λ i, bit_of (truthy_at values i))
              <$> seq 0 (Z.to_nat ((statesize this).1 * (statesize this).2)))
    ∧ gpu e' !! back this = gpu e !! back this.
Proof.
  intros Hwf. pose proof Hwf as [Hne (tf & Hf & Hsf & Hbf) _].
  destruct (set_front values this e tf Hf Hsf) as (t' & Hset & Hs' & Hb' & Hc).
  eexists. split; [exact Hset|]. split; [by apply wf_front_update|]. split.
  - unfold generation. simpl. rewrite lookup_insert_eq. simpl. by rewrite Hc.
  - simpl. by rewrite lookup_insert_ne.
Qed.

(** C7, amended: [set] never fails.  For every array it completes, returns
    the object and overwrites the whole front generation: cell [i] becomes
    alive when [values[i]] is truthy and dead when it is falsy or past the
    end of [values]; entries past [width * height] are dropped.  With
    [width * height] values the front generation becomes those values.  The
    back texture is left as it was. *)
Theorem set_always_overwrites {A} `{Truthy A} (values : list A) (this : GOL) (e : Env) :
  wf this e →
  ∃ e', set values this e = Normal (this, e') ∧ wf this e'
    ∧ generation this e'
      = Some ((λ i, bit_of (truthy_at values i))
              <$> seq 0 (Z.to_nat ((statesize this).1 * (statesize this).2)))
    ∧ (length values = Z.to_nat ((statesize this).1 * (statesize this).2) →
       generation this e' = Some ((λ v, bit_of (truthy v)) <$> values))
    ∧ gpu e' !! back this = gpu e !! back this.
Proof.
  intros Hwf. destruct (set_overwrites values this e Hwf) as (e' & Hset & Hwf' & Hg & Hb).
  exists e'. split; [done|]. split; [done|]. split; [done|]. split; [|done].
  intros Hlen. rewrite Hg, <- Hlen. by rewrite fmap_truthy_at.
Qed.

Lemma set_always_overwrites_witness :
  wf grid2 (env2 (λ _, 0%Q))
  ∧ ∃ e', set [true] grid2 (env2 (λ _, 0%Q)) = Normal (grid2, e') ∧ wf grid2 e'
    ∧ generation grid2 e'
      = Some ((λ i, bit_of (truthy_at [true] i)) <$> seq 0 (Z.to_nat (2 * 2)))
    ∧ (length [true] = Z.to_nat (2 * 2) →
       generation grid2 e' = Some ((λ v, bit_of (truthy v)) <$> [true]))
    ∧ gpu e' !! back grid2 = gpu (env2 (λ _, 0%Q)) !! back grid2.
Proof.
  split; [exact (wf_env2 _)|].
  exact (set_always_overwrites [true] grid2 (env2 (λ _, 0%Q)) (wf_env2 _)).
Defined.

(** ** The randomness of [setRandom] (C8) *)

(** C8, as stated, fails: two calls with the same [p] and the same random
    source as second argument, on the same grid, leave different grids when
    [Math.random] answers differently. *)
Lemma setRandom_ignores_source :
  generation_after (setRandom_with (Some (1 # 2)%Q) (λ _, 0%Q) grid2) (env2 (λ _, 0%Q))
  = Normal (Some [1; 1; 1; 1])
  ∧ generation_after (setRandom_with (Some (1 # 2)%Q) (λ _, 0%Q) grid2) (env2 (λ _, (9 # 10)%Q))
    = Normal (Some [0; 0; 0; 0]).
Proof. split; reflexivity. Qed.

(** What [setRandom] does to a well-formed grid. *)
Lemma setRandom_generation (p : option Q) (this : GOL) (e : Env) :
  wf this e →
  ∃ e', setRandom p this e = Normal (this, e') ∧ wf this e'
    ∧ drawn e' = (drawn e + Z.to_nat ((statesize this).1 * (statesize this).2))%nat
    ∧ random e' = random e
    ∧ generation this e'
      = Some ((λ i, bit_of (Qltb (random e (drawn e + i)) (default (1 # 2)%Q p)))
              <$> seq 0 (Z.to_nat ((statesize this).1 * (statesize this).2))).
Proof.
  intros Hwf. rewrite setRandom_unfold. unfold bind, ret.
  set (size := Z.to_nat ((statesize this).1 * (statesize this).2)).
  set (e0 := with_drawn (drawn e + size) e).
  assert (wf this e0) as Hwf0 by (destruct Hwf; by split).
  set (rand := (λ i, bit_of (Qltb (random e (drawn e + i)) (default (1 # 2)%Q p))) <$> seq 0 size).
  destruct (set_overwrites rand this e0 Hwf0) as (e' & Hset & Hwf' & Hg & _).
  destruct (set_frame rand this e0 (wf_distinct _ _ Hwf)) as (e'' & Hset' & _ & Hd & Hr).
  assert (e'' = e') as -> by congruence.
  rewrite Hset.
  exists e'. split; [done|]. split; [done|]. split; [done|]. split; [done|].
  rewrite Hg. fold size. f_equal. unfold rand.
  apply list_eq. intros i. rewrite !list_lookup_fmap.
  destruct (decide (i < size)%nat) as [Hi|Hi].
  - rewrite lookup_seq_lt by done. simpl. unfold truthy_at.
    rewrite list_lookup_fmap, lookup_seq_lt by done. simpl.
    by rewrite truthy_bit_of.
  - by rewrite lookup_seq_ge by lia.
Qed.

(** C8, amended: [setRandom(p)] takes its randomness from [Math.random] and
    from nothing else; a random source passed as a further argument is
    dropped.  It makes one draw per cell, in order, and cell [i] becomes
    alive exactly when its draw is below [p], where [p] is 0.5 when omitted;
    so two calls with the same [p] that meet the same draws of [Math.random]
    leave the same front generation. *)
Theorem setRandom_draws (p : option Q) (this : GOL) (e e2 : Env) :
  wf this e → wf this e2 →
  let size := Z.to_nat ((statesize this).1 * (statesize this).2) in
  (∀ rng, setRandom_with p rng this e = setRandom p this e)
  ∧ setRandom None this e = setRandom (Some (1 # 2)%Q) this e
  ∧ (∃ e', setRandom p this e = Normal (this, e') ∧ wf this e'
       ∧ drawn e' = (drawn e + size)%nat ∧ random e' = random e
       ∧ generation this e'
         = Some ((λ i, bit_of (Qltb (random e (drawn e + i)) (default (1 # 2)%Q p)))
                 <$> seq 0 size))
  ∧ ((∀ i, (i < size)%nat → random e2 (drawn e2 + i) = random e (drawn e + i)) →
     generation_after (setRandom p this) e2 = generation_after (setRandom p this) e).
Proof.
  intros Hwf Hwf2. cbv zeta.
  split; [done|]. split; [by rewrite !setRandom_unfold|].
  split; [by apply setRandom_generation|].
  intros Hsame. unfold generation_after.
  destruct (setRandom_generation p this e Hwf) as (e' & -> & _ & _ & _ & ->).
  destruct (setRandom_generation p this e2 Hwf2) as (e2' & -> & _ & _ & _ & ->).
  do 2 f_equal. apply list_eq. intros i. rewrite !list_lookup_fmap.
  destruct (seq 0 _ !! i) as [j|] eqn:E; [|done]. simpl.
  apply lookup_seq in E as [-> Hj]. by rewrite Hsame.
Qed.

Lemma setRandom_draws_witness :
  (wf grid2 (env2 (λ _, (9 # 10)%Q)) ∧ wf grid2 (env2 (λ _, (3 # 4)%Q)))
  ∧ setRandom None grid2 (env2 (λ _, (9 # 10)%Q))
    = setRandom (Some (1 # 2)%Q) grid2 (env2 (λ _, (9 # 10)%Q)).
Proof.
  split; [split; exact (wf_env2 _)|].
  apply (setRandom_draws None grid2 (env2 (λ _, (9 # 10)%Q)) (env2 (λ _, (3 # 4)%Q))
           (wf_env2 _) (wf_env2 _)).
Defined.

(** ** The interval timer (C9) *)

(** [stop] clears the one timer the scheduler may own. *)
Lemma stop_clears this e :
  match timer this with
  | Some id => ∃ delay, timers e = {[id := delay]}
  | None => timers e = ∅
  end →
  ∃ e', stop this e = Normal (with_timer None this, e') ∧ timers e' = ∅
        ∧ next_timer e' = next_timer e.
Proof.
  intros Ht. unfold stop, bind, clearInterval, modify, ret. eexists. split; [done|]. simpl.
  split; [|done]. destruct (timer this) as [id|].
  - destruct Ht as [delay ->]. apply delete_singleton_eq.
  - done.
Qed.

Lemma start_stopped this e :
  timer this = None → timers e = ∅ →
  ∃ this' e', start this e = Normal (this', e') ∧ scheduled this' e'
              ∧ timer this' = Some (next_timer e) ∧ interval this' = interval this.
Proof.
  intros Ht He. unfold start, bind, setInterval, ret. rewrite Ht.
  eexists _, _. split; [done|]. split; [|done].
  unfold scheduled. simpl. rewrite He. apply insert_empty.
Qed.

Lemma start_running this e id : timer this = Some id → start this e = Normal (this, e).
Proof. intros Ht. unfold start. by rewrite Ht. Qed.

Lemma scheduled_weaken this e i :
  scheduled this e →
  match timer (with_interval i this) with
  | Some id => ∃ delay, timers e = {[id := delay]}
  | None => timers e = ∅
  end.
Proof. unfold scheduled. simpl. destruct (timer this); eauto. Qed.

Lemma restart_scheduled this e i :
  scheduled this e →
  ∃ this' e', (this1 <- stop (with_interval i this) ;; start this1) e = Normal (this', e')
              ∧ scheduled this' e'.
Proof.
  intros Hs. destruct (stop_clears (with_interval i this) e (scheduled_weaken this e i Hs))
    as (e1 & Hstop & Hempty & _).
  destruct (start_stopped (with_timer None (with_interval i this)) e1 eq_refl Hempty)
    as (this' & e' & Hstart & Hs' & _).
  exists this', e'. unfold bind. by rewrite Hstop.
Qed.

Lemma run_command_scheduled c this e :
  scheduled this e →
  ∃ this' e', run_command c this e = Normal (this', e') ∧ scheduled this' e'.
Proof.
  intros Hs.
  assert (∃ this' e', start this e = Normal (this', e') ∧ scheduled this' e') as Hstart.
  { destruct (timer this) as [id|] eqn:Ht.
    - exists this, e. by rewrite (start_running this e id).
    - unfold scheduled in Hs. rewrite Ht in Hs.
      destruct (start_stopped this e Ht Hs) as (this' & e' & ? & ? & _). eauto. }
  assert (∃ this' e', stop this e = Normal (this', e') ∧ scheduled this' e') as Hstop.
  { destruct (stop_clears this e) as (e' & ? & ? & _).
    - unfold scheduled in Hs. destruct (timer this); eauto.
    - by exists (with_timer None this), e'. }
  destruct c; simpl.
  - done.
  - done.
  - unfold toggle. by destruct (timer this).
  - by apply restart_scheduled.
  - by apply restart_scheduled.
Qed.

Lemma scheduled_size this e : scheduled this e → (size (timers e) ≤ 1)%nat.
Proof.
  unfold scheduled. destruct (timer this) as [id|]; intros ->.
  - by rewrite map_size_singleton.
  - rewrite map_size_empty. lia.
Qed.

(** C9: the scheduler never owns two timers.  From a state in which the
    page's only timer, if any, is the one the object remembers, every
    sequence of [start], [stop], [toggle] and restarts with a new interval
    completes and ends in such a state, with at most one timer active; there
    a further [start] while running changes nothing, and [stop] leaves no
    timer behind. *)
Theorem scheduler_single_timer (cs : list command) (this : GOL) (e : Env) :
  scheduled this e →
  ∃ this' e', run_commands cs this e = Normal (this', e')
    ∧ scheduled this' e' ∧ (size (timers e') ≤ 1)%nat
    ∧ (is_Some (timer this') → start this' e' = Normal (this', e'))
    ∧ (∃ e'', stop this' e' = Normal (with_timer None this', e'') ∧ timers e'' = ∅).
Proof.
  revert this e. induction cs as [|c cs IH]; intros this e Hs.
  - exists this, e. split; [done|]. split; [done|]. split; [by apply (scheduled_size this)|].
    split.
    + intros [id Ht]. by apply (start_running this e id).
    + destruct (stop_clears this e) as (e' & ? & ? & _); [|by eauto].
      unfold scheduled in Hs. destruct (timer this); eauto.
  - destruct (run_command_scheduled c this e Hs) as (this1 & e1 & Hc & Hs1).
    destruct (IH this1 e1 Hs1) as (this' & e' & Hrun & Hrest).
    exists this', e'. split; [|done].
    cbn [run_commands]. unfold bind. by rewrite Hc.
Qed.

Lemma scheduler_single_timer_witness :
  scheduled grid3 env3
  ∧ ∃ this' e', run_commands [Start; Start; Comma; Toggle; Toggle; Period] grid3 env3
                = Normal (this', e')
      ∧ scheduled this' e' ∧ (size (timers e') ≤ 1)%nat
      ∧ (is_Some (timer this') → start this' e' = Normal (this', e'))
      ∧ (∃ e'', stop this' e' = Normal (with_timer None this', e'') ∧ timers e'' = ∅).
Proof.
  assert (scheduled grid3 env3) as Hs by reflexivity.
  split; [exact Hs|].
  exact (scheduler_single_timer [Start; Start; Comma; Toggle; Toggle; Period] grid3 env3 Hs).
Defined.

(** ** The round trip of the codec (C4) *)

(** C4: [expand(compact(S))] is [S] for every boolean array [S] whose length
    is a multiple of 8, the booleans read back as the bytes 1 and 0, and
    entry [i] of [S] is bit [i % 8] of byte [i / 8] of the packed stream. *)
Theorem expand_compact (S : list bool) :
  (length S mod 8 = 0)%nat →
  Codec.expand (Codec.compact S) = bit_of <$> S
  ∧ truthy <$> Codec.expand (Codec.compact S) = S
  ∧ ∀ i, (i < length S)%nat →
      Z.testbit (byte_at (Codec.compact S) (i / 8)) (Z.of_nat (i mod 8)) = truthy_at S i.
Proof.
  intros Hlen. pose proof (Nat.div_mod_eq (length S) 8) as Hdm.
  assert (length S / 8 * 8 = length S)%nat as Hfull by lia.
  assert (Codec.expand (Codec.compact S) = bit_of <$> S) as Hround.
  { apply list_eq. intros i. destruct (decide (i < length S)%nat) as [Hi|Hi].
    - rewrite expand_compact_lookup by lia. rewrite list_lookup_fmap. unfold truthy_at.
      destruct (S !! i) as [b|] eqn:E; [done|]. apply lookup_ge_None in E. lia.
    - rewrite !lookup_ge_None_2; [done| |].
      + rewrite length_fmap. lia.
      + rewrite expand_length, compact_length. lia.
  }
  split; [done|]. split.
  - rewrite Hround, <- list_fmap_compose. rewrite <- (list_fmap_id S) at 2.
    apply list_fmap_ext. intros _ b _. simpl. apply truthy_bit_of.
  - intros i Hi. pose proof (Nat.div_mod_eq i 8). pose proof (Nat.mod_upper_bound i 8 ltac:(lia)).
    assert (i / 8 < length S / 8)%nat by (apply Nat.Div0.div_lt_upper_bound; lia).
    rewrite compact_testbit by done. f_equal. lia.
Qed.

Lemma expand_compact_witness :
  (length [true; false; true; true; false; false; false; true] mod 8 = 0)%nat
  ∧ Codec.expand (Codec.compact [true; false; true; true; false; false; false; true])
    = bit_of <$> [true; false; true; true; false; false; false; true].
Proof.
  split; [reflexivity|].
  apply (expand_compact [true; false; true; true; false; false; false; true]). reflexivity.
Defined.

(** ** The length of the packed stream (C5) *)

(** C5, as stated, fails: a state of 12 cells is packed into one byte, not
    into the two of [ceil(12 / 8)]; its last four cells are not stored. *)
Lemma compact_drops_partial_byte :
  Codec.compact (replicate 12 true) = [255]
  ∧ length (Codec.compact (replicate 12 true)) = 1%nat
  ∧ Codec.ceil_div8 12 = 2%nat.
Proof. repeat split; reflexivity. Qed.

(** C5, amended: for every state of length [N], [compact] returns
    [floor(N / 8)] bytes; byte [i] holds entry [i * 8 + k] of the state at
    bit [k] for [k = 0..7] and no higher bit; the last [N mod 8] entries are
    dropped. *)
Theorem compact_floor {A} `{Truthy A} (state : list A) :
  length (Codec.compact state) = (length state / 8)%nat
  ∧ (∀ i k, (i < length state / 8)%nat → (k < 8)%nat →
       Z.testbit (byte_at (Codec.compact state) i) (Z.of_nat k) = truthy_at state (i * 8 + k))
  ∧ (∀ i k, (8 ≤ k)%nat → Z.testbit (byte_at (Codec.compact state) i) (Z.of_nat k) = false)
  ∧ Codec.compact state = Codec.compact (take (length state / 8 * 8) state).
Proof.
  split; [apply compact_length|]. split; [apply compact_testbit|].
  split; [apply compact_high_bits|].
  pose proof (Nat.div_mod_eq (length state) 8) as Hdm.
  assert (length (take (length state / 8 * 8) state) = (length state / 8 * 8)%nat) as Htake
    by (rewrite length_take; lia).
  assert (length (take (length state / 8 * 8) state) / 8 = length state / 8)%nat as Hbytes
    by (rewrite Htake; apply Nat.div_mul; lia).
  apply list_eq. intros i.
  destruct (decide (i < length state / 8)%nat) as [Hi|Hi]; cycle 1.
  { rewrite !lookup_ge_None_2; [done| |]; rewrite compact_length; lia. }
  destruct (Codec.compact state !! i) as [b1|] eqn:E1;
    [|apply lookup_ge_None in E1; rewrite compact_length in E1; lia].
  destruct (Codec.compact (take _ state) !! i) as [b2|] eqn:E2;
    [|apply lookup_ge_None in E2; rewrite compact_length in E2; lia].
  f_equal. apply byte_at_lookup in E1, E2. subst b1 b2.
  apply Z.bits_inj'. intros n Hn. rewrite <- (Z2Nat.id n Hn).
  destruct (decide (Z.to_nat n < 8)%nat) as [Hk|Hk].
  - rewrite !compact_testbit by lia. unfold truthy_at.
    rewrite lookup_take_lt by lia. done.
  - rewrite !compact_high_bits by lia. done.
Qed.

(** * Further properties *)

(** ** What the methods keep *)

Lemma wf_ext this this' e e' :
  front this' = front this → back this' = back this → statesize this' = statesize this →
  gpu e' = gpu e → wf this e → wf this' e'.
Proof.
  intros Hf Hb Hs Hg [Hne Hfront Hback]. split; rewrite ?Hf, ?Hb, ?Hs, ?Hg; done.
Qed.

Lemma scheduled_ext this this' e e' :
  timer this' = timer this → interval this' = interval this → timers e' = timers e →
  scheduled this e → scheduled this' e'.
Proof. unfold scheduled. by intros -> -> ->. Qed.

(** The page stays sound when a method changes textures and bindings only,
    and of the object at most which texture is the front one. *)
Lemma sound_textures canvas this this' e e' :
  sound canvas this e → wf this' e' →
  scalePower this' = scalePower this → scale this' = scale this →
  interval this' = interval this → viewsize this' = viewsize this →
  statesize this' = statesize this → timer this' = timer this →
  webgl e' = webgl e → timers e' = timers e →
  sound canvas this' e'.
Proof.
  intros [] Hwf Hp Hs Hi Hv Hst Ht Hgl Htm.
  split; rewrite ?Hp, ?Hs, ?Hv, ?Hst, ?Hgl; try done.
  by apply (scheduled_ext this this' e e').
Qed.

(** The page stays sound when a method changes the timer only. *)
Lemma sound_timer canvas this this' e e' :
  sound canvas this e → scheduled this' e' →
  scalePower this' = scalePower this → scale this' = scale this →
  viewsize this' = viewsize this → statesize this' = statesize this →
  front this' = front this → back this' = back this →
  webgl e' = webgl e → gpu e' = gpu e →
  sound canvas this' e'.
Proof.
  intros [] Hsch Hp Hs Hv Hst Hf Hb Hgl Hg.
  split; rewrite ?Hp, ?Hs, ?Hv, ?Hst, ?Hgl; try done.
  by apply (wf_ext this this' e e').
Qed.

Lemma set_keeps {A} `{Truthy A} canvas (state : list A) : keeps canvas (set state).
Proof.
  intros this e Hs. pose proof (sound_wf _ _ _ Hs) as Hwf.
  pose proof Hwf as [Hne (tf & Hf & Hsf & Hbf) _].
  destruct (set_front state this e tf Hf Hsf) as (t' & Hset & Hs' & Hb' & _).
  eexists _, _. split; [exact Hset|]. split; [|done].
  apply (sound_textures canvas this this e); try done.
  by apply wf_front_update.
Qed.

Lemma setEmpty_keeps canvas : keeps canvas setEmpty.
Proof.
  intros this e Hs. unfold setEmpty, bind, ret.
  destruct (set_keeps canvas (Uint8Array (Z.to_nat ((statesize this).1 * (statesize this).2)))
              this e Hs) as (this' & e' & Hset & Hs' & Hp).
  destruct (set_completes (Uint8Array (Z.to_nat ((statesize this).1 * (statesize this).2))) this e)
    as (e'' & Hset').
  rewrite Hset' in Hset. injection Hset as <- <-. rewrite Hset'. eauto.
Qed.

Lemma setRandom_keeps canvas p : keeps canvas (setRandom p).
Proof.
  intros this e Hs. rewrite setRandom_unfold. unfold bind, ret.
  match goal with |- context [set ?s this ?e0] =>
    destruct (set_keeps canvas s this e0) as (this' & e' & Hset & Hs' & Hp);
    [|destruct (set_completes s this e0) as (e'' & Hset')] end.
  - apply (sound_textures canvas this this e); try done.
    apply (wf_ext this this e); try done. by destruct Hs.
  - rewrite Hset' in Hset. injection Hset as <- <-. rewrite Hset'. eauto.
Qed.

Lemma poke_keeps canvas x y state : keeps canvas (poke x y state).
Proof.
  intros this e Hs. pose proof (sound_wf _ _ _ Hs) as Hwf.
  pose proof Hwf as [Hne (tf & Hf & Hsf & Hbf) _].
  eexists _, _. split; [by apply poke_front|]. split; [|done].
  apply (sound_textures canvas this this e); try done.
  apply wf_front_update; [done|by apply write_sized|].
  apply write_binary; [done|]. destruct state; [by right|by left].
Qed.

Lemma draw_keeps canvas : keeps canvas draw.
Proof.
  intros this e Hs. eexists _, _. split; [reflexivity|]. split; [|done].
  apply (sound_textures canvas this this e); try done.
  apply (wf_ext this this e); try done. by destruct Hs.
Qed.

Lemma step_keeps canvas : keeps canvas step.
Proof.
  intros this e Hs. pose proof (sound_wf _ _ _ Hs) as Hwf.
  pose proof Hwf as [Hne (tf & Hf & Hsf & Hbf) (tb & Hb & Hsb)].
  eexists _, _. split; [by apply (step_run this e tf tb)|]. split; [|done].
  apply (sound_textures canvas this _ e); try done.
  by apply wf_step.
Qed.

Lemma keeps_bind canvas (m k : GOL → M GOL) :
  keeps canvas m → keeps canvas k → keeps canvas (λ this, this1 <- m this ;; k this1).
Proof.
  intros Hm Hk this e Hs.
  destruct (Hm this e Hs) as (this1 & e1 & Hrun1 & Hs1 & Hp1).
  destruct (Hk this1 e1 Hs1) as (this2 & e2 & Hrun2 & Hs2 & Hp2).
  exists this2, e2. unfold bind. rewrite Hrun1. split; [done|]. split; [done|congruence].
Qed.

Lemma tick_keeps canvas : keeps canvas tick.
Proof. apply keeps_bind; [apply step_keeps|apply draw_keeps]. Qed.

Lemma ticks_keeps canvas n : keeps canvas (ticks n).
Proof.
  induction n as [|n IH].
  - intros this e Hs. by exists this, e.
  - apply (keeps_bind canvas tick (ticks n)); [apply tick_keeps|done].
Qed.

(** The scheduler's commands change the timer and the interval only. *)
Lemma run_command_frame c this e this' e' :
  run_command c this e = Normal (this', e') →
  scalePower this' = scalePower this ∧ scale this' = scale this
  ∧ viewsize this' = viewsize this ∧ statesize this' = statesize this
  ∧ front this' = front this ∧ back this' = back this
  ∧ numSteps this' = numSteps this
  ∧ webgl e' = webgl e ∧ gpu e' = gpu e.
Proof.
  assert (∀ this e this' e', start this e = Normal (this', e') →
    scalePower this' = scalePower this ∧ scale this' = scale this
    ∧ viewsize this' = viewsize this ∧ statesize this' = statesize this
    ∧ front this' = front this ∧ back this' = back this
    ∧ numSteps this' = numSteps this
    ∧ webgl e' = webgl e ∧ gpu e' = gpu e) as Hstart.
  { clear. intros this e this' e'. unfold start, bind, setInterval, ret.
    destruct (timer this); intros [= <- <-]; repeat split. }
  assert (∀ this e this' e', stop this e = Normal (this', e') →
    scalePower this' = scalePower this ∧ scale this' = scale this
    ∧ viewsize this' = viewsize this ∧ statesize this' = statesize this
    ∧ front this' = front this ∧ back this' = back this
    ∧ numSteps this' = numSteps this
    ∧ webgl e' = webgl e ∧ gpu e' = gpu e) as Hstop.
  { clear. intros this e this' e'. unfold stop, bind, clearInterval, modify, ret.
    intros [= <- <-]; repeat split. }
  assert (∀ i this e this' e',
    (this1 <- stop (with_interval i this) ;; start this1) e = Normal (this', e') →
    scalePower this' = scalePower this ∧ scale this' = scale this
    ∧ viewsize this' = viewsize this ∧ statesize this' = statesize this
    ∧ front this' = front this ∧ back this' = back this
    ∧ numSteps this' = numSteps this
    ∧ webgl e' = webgl e ∧ gpu e' = gpu e) as Hrestart.
  { clear - Hstart Hstop. intros i this e this' e'. unfold bind at 1.
    destruct (stop (with_interval i this) e) as [[this1 e1]|] eqn:E1; [|done].
    intros E2. apply Hstop in E1. apply Hstart in E2. cbn [with_interval scalePower scale
      viewsize statesize front back numSteps] in E1.
    destruct E1 as (? & ? & ? & ? & ? & ? & ? & ? & ?).
    destruct E2 as (? & ? & ? & ? & ? & ? & ? & ? & ?). repeat split; congruence. }
  destruct c; cbn [run_command].
  - apply Hstart.
  - apply Hstop.
  - unfold toggle. destruct (timer this); [apply Hstop|apply Hstart].
  - apply Hrestart.
  - apply Hrestart.
Qed.

Lemma run_command_keeps canvas c : keeps canvas (run_command c).
Proof.
  intros this e Hs.
  destruct (run_command_scheduled c this e (sound_scheduled _ _ _ Hs)) as (this' & e' & Hrun & Hsch).
  exists this', e'. split; [done|].
  destruct (run_command_frame c this e this' e' Hrun) as (? & ? & ? & ? & ? & ? & _ & ? & ?).
  split; [|done]. by apply (sound_timer canvas this this' e e').
Qed.

Lemma keeps_same canvas (m : GOL → M GOL) :
  keeps canvas m → (∀ this e, ∃ e', m this e = Normal (this, e')) →
  ∀ this e, sound canvas this e → ∃ e', m this e = Normal (this, e') ∧ sound canvas this e'.
Proof.
  intros Hk Hc this e Hs. destruct (Hk this e Hs) as (this' & e' & Hrun & Hs' & _).
  destruct (Hc this e) as (e'' & Hrun'). rewrite Hrun' in Hrun. injection Hrun as <- <-.
  eauto.
Qed.

Lemma setEmpty_completes this e : ∃ e', setEmpty this e = Normal (this, e').
Proof.
  unfold setEmpty, bind, ret.
  destruct (set_completes (Uint8Array (Z.to_nat ((statesize this).1 * (statesize this).2))) this e)
    as (e' & ->). eauto.
Qed.

Lemma setRandom_completes p this e : ∃ e', setRandom p this e = Normal (this, e').
Proof.
  rewrite setRandom_unfold. unfold bind, ret.
  match goal with |- context [set ?s this ?e0] =>
    destruct (set_completes s this e0) as (e' & ->) end.
  eauto.
Qed.

Lemma draw_completes this e : ∃ e', draw this e = Normal (this, e').
Proof. by eexists. Qed.

(** ** The constructor *)

Lemma new_GOL_run canvas config e :
  webgl e = true → 0 ≤ canvas.1 → 0 ≤ canvas.2 → 0 ≤ default 2 (config_scalePower config) →
  ∃ this e', new_GOL canvas config e = Normal (this, e') ∧ wf this e'
    ∧ scalePower this = default 2 (config_scalePower config)
    ∧ scale this = 2 ^ scalePower this
    ∧ interval this = default 60 (config_interval config)
    ∧ viewsize this = canvas
    ∧ statesize this = (canvas.1 `div` scale this, canvas.2 `div` scale this)
    ∧ timer this = None ∧ numSteps this = 0
    ∧ webgl e' = true ∧ timers e' = timers e
    ∧ (front this ∉ dom (gpu e)) ∧ (back this ∉ dom (gpu e))
    ∧ (∀ id, id ∈ dom (gpu e) → gpu e' !! id = gpu e !! id)
    ∧ generation this e'
      = Some (replicate (Z.to_nat ((statesize this).1 * (statesize this).2)) 0).
Proof.
  destruct canvas as [cw ch]. cbn [fst snd].
  intros Hgl Hw Hh Hsp. unfold new_GOL, bind, gets, ret, throw. rewrite Hgl. simpl.
  set (scale := 2 ^ default 2 (config_scalePower config)).
  assert (0 < scale) by (apply Z.pow_pos_nonneg; lia).
  set (w := cw `div` scale). set (h := ch `div` scale).
  assert (0 ≤ w) by (apply Z.div_pos; lia). assert (0 ≤ h) by (apply Z.div_pos; lia).
  set (f := fresh (dom (gpu e))).
  set (b := fresh (dom (<[f := GL.blank w h]> (gpu e)))).
  pose proof (is_fresh (dom (gpu e))) as Hf. fold f in Hf.
  pose proof (is_fresh (dom (<[f := GL.blank w h]> (gpu e)))) as Hb. fold b in Hb.
  rewrite dom_insert in Hb.
  assert (f ≠ b) as Hne by set_solver.
  assert (b ∉ dom (gpu e)) as Hb' by set_solver.
  assert (sized w h (GL.blank w h)) as Hs.
  { unfold sized, GL.blank. simpl. by rewrite length_replicate. }
  eexists _, _. split; [done|]. simpl.
  split; [|repeat (split; [done|])].
  - split; simpl.
    + done.
    + exists (GL.blank w h). rewrite lookup_insert_ne, lookup_insert_eq by done.
      split; [done|split; [done|]]. unfold binary, GL.blank. simpl.
      apply Forall_replicate. by left.
    + exists (GL.blank w h). by rewrite lookup_insert_eq.
  - split.
    + intros id Hid. rewrite !lookup_insert_ne; [done| |]; intros <-; done.
    + unfold generation. simpl. rewrite lookup_insert_ne, lookup_insert_eq by done. simpl.
      unfold cells, GL.blank. simpl. by rewrite fmap_replicate.
Qed.

(** X1: for a canvas whose sides are multiples of the cell size, the
    constructor throws ['No WebGL'] when the canvas gives no context and
    completes otherwise.  The grid it then builds has [scalePower] 2 and
    [interval] 60 unless the configuration says otherwise, the size of the
    canvas divided by the cell size, two new textures that leave the existing
    ones alone, no timer, and not one live cell. *)
Theorem constructor_builds_dead_grid (canvas : Z * Z) (config : Config) (e : Env) :
  0 ≤ canvas.1 → 0 ≤ canvas.2 → 0 ≤ default 2 (config_scalePower config) →
  (2 ^ default 2 (config_scalePower config) | canvas.1) →
  (2 ^ default 2 (config_scalePower config) | canvas.2) →
  (webgl e = false → new_GOL canvas config e = Throw "No WebGL")
  ∧ (webgl e = true →
     ∃ this e', new_GOL canvas config e = Normal (this, e') ∧ wf this e'
       ∧ scalePower this = default 2 (config_scalePower config)
       ∧ scale this = 2 ^ scalePower this
       ∧ interval this = default 60 (config_interval config)
       ∧ viewsize this = canvas
       ∧ statesize this = (canvas.1 `div` scale this, canvas.2 `div` scale this)
       ∧ timer this = None ∧ numSteps this = 0
       ∧ timers e' = timers e
       ∧ (front this ∉ dom (gpu e)) ∧ (back this ∉ dom (gpu e))
       ∧ (∀ id, id ∈ dom (gpu e) → gpu e' !! id = gpu e !! id)
       ∧ generation this e'
         = Some (replicate (Z.to_nat ((statesize this).1 * (statesize this).2)) 0)).
Proof.
  intros Hw Hh Hsp _ _. split.
  - intros Hgl. unfold new_GOL, bind, gets, throw. by rewrite Hgl.
  - intros Hgl.
    destruct (new_GOL_run canvas config e Hgl Hw Hh Hsp)
      as (this & e' & ? & ? & ? & ? & ? & ? & ? & ? & ? & _ & ? & ? & ? & ? & ?).
    exists this, e'. repeat (split; [done|]). done.
Qed.

Lemma constructor_builds_dead_grid_witness :
  (0 ≤ 512 ∧ 0 ≤ 512 ∧ 0 ≤ default 2 (config_scalePower (mkConfig None (Some 30)))
   ∧ (2 ^ default 2 (config_scalePower (mkConfig None (Some 30))) | 512))
  ∧ (webgl (page (λ _, 0%Q)) = true →
     ∃ this e', new_GOL (512, 512) (mkConfig None (Some 30)) (page (λ _, 0%Q)) = Normal (this, e')
       ∧ wf this e'
       ∧ scalePower this = default 2 (config_scalePower (mkConfig None (Some 30)))
       ∧ scale this = 2 ^ scalePower this
       ∧ interval this = default 60 (config_interval (mkConfig None (Some 30)))
       ∧ viewsize this = (512, 512)
       ∧ statesize this = ((512, 512).1 `div` scale this, (512, 512).2 `div` scale this)
       ∧ timer this = None ∧ numSteps this = 0
       ∧ timers e' = timers (page (λ _, 0%Q))
       ∧ (front this ∉ dom (gpu (page (λ _, 0%Q)))) ∧ (back this ∉ dom (gpu (page (λ _, 0%Q))))
       ∧ (∀ id, id ∈ dom (gpu (page (λ _, 0%Q))) → gpu e' !! id = gpu (page (λ _, 0%Q)) !! id)
       ∧ generation this e'
         = Some (replicate (Z.to_nat ((statesize this).1 * (statesize this).2)) 0)).
Proof.
  assert (2 ^ default 2 (config_scalePower (mkConfig None (Some 30))) | 512) as Hd
    by (exists 128; reflexivity).
  split; [simpl; repeat split; lia || exact Hd|].
  apply (constructor_builds_dead_grid (512, 512) (mkConfig None (Some 30)) (page (λ _, 0%Q)));
    simpl; lia || exact Hd.
Defined.

Lemma new_GOL_sound canvas k i e :
  webgl e = true → 0 ≤ canvas.1 → 0 ≤ canvas.2 → (64 | canvas.1) → (64 | canvas.2) →
  0 ≤ k ≤ 6 → timers e = ∅ →
  ∃ this e', new_GOL canvas (mkConfig (Some k) (Some i)) e = Normal (this, e')
    ∧ sound canvas this e' ∧ scalePower this = k ∧ interval this = i ∧ timer this = None.
Proof.
  intros Hgl Hw Hh Hdw Hdh Hk Ht.
  destruct (new_GOL_run canvas (mkConfig (Some k) (Some i)) e Hgl Hw Hh)
    as (this & e' & Hrun & Hwf & Hp & Hsc & Hi & Hv & Hst & Htm & _ & Hgl' & Ht' & _);
    [simpl; lia|].
  simpl in Hp, Hi. exists this, e'. split; [done|]. split; [|done].
  split; try done.
  - unfold scheduled. rewrite Htm. congruence.
  - lia.
Qed.

Lemma start_run this e :
  ∃ this' e', start this e = Normal (this', e') ∧ is_Some (timer this')
    ∧ interval this' = interval this.
Proof.
  unfold start, bind, setInterval, ret. destruct (timer this) eqn:E.
  - exists this, e. rewrite E. eauto.
  - eexists _, _. split; [done|]. simpl. eauto.
Qed.

(** A new controller randomizes the grid and starts the simulation. *)
Lemma new_Controller_sound canvas g saved e :
  sound canvas g e →
  ∃ c e', new_Controller g saved e = Normal (c, e') ∧ sound canvas (gol c) e'
    ∧ scalePower (gol c) = scalePower g ∧ interval (gol c) = interval g
    ∧ is_Some (timer (gol c)) ∧ drag c = None ∧ _save c = saved.
Proof.
  intros Hs. unfold new_Controller, bind.
  destruct (keeps_same canvas (setRandom None) (setRandom_keeps canvas None)
              (setRandom_completes None) g e Hs) as (e1 & -> & Hs1).
  destruct (keeps_same canvas draw (draw_keeps canvas) draw_completes g e1 Hs1) as (e2 & -> & Hs2).
  destruct (run_command_keeps canvas Start g e2 Hs2) as (g3 & e3 & Hrun & Hs3 & Hp).
  destruct (start_run g e2) as (g3' & e3' & Hrun' & Htm & Hi).
  simpl in Hrun. rewrite Hrun' in Hrun. injection Hrun as -> ->. rewrite Hrun'.
  eexists _, _. split; [done|]. simpl. done.
Qed.

(** ** The handlers *)

Lemma with_gol_same c : with_gol (gol c) c = c.
Proof. by destruct c. Qed.

(** [get] attaches the front texture and reports its cells. *)
Lemma get_sound canvas this e :
  sound canvas this e →
  ∃ s e', get this e = Normal (s, e') ∧ sound canvas this e'
    ∧ generation this e = Some s ∧ gpu e' = gpu e
    ∧ length s = Z.to_nat ((statesize this).1 * (statesize this).2)
    ∧ Forall (λ v, v = 0 ∨ v = 1) s.
Proof.
  intros Hs. pose proof (sound_wf _ _ _ Hs) as Hwf.
  pose proof Hwf as [Hne (tf & Hf & Hsf & Hbf) _]. pose proof Hsf as (_ & _ & _ & _ & Hl).
  exists (cells tf), (with_attached (Some (front this)) e).
  split; [by apply get_cells|]. split; [|split; [|split; [done|split]]].
  - apply (sound_textures canvas this this e); try done.
    by apply (wf_ext this this e).
  - unfold generation. by rewrite Hf.
  - unfold cells. by rewrite length_fmap.
  - unfold cells. apply Forall_fmap, Forall_forall. intros v _. simpl.
    destruct (alive v); [by right|by left].
Qed.

(** A method of the simulation followed by [draw], as the handlers do. *)
Lemma then_draw canvas (m : GOL → M GOL) c e :
  keeps canvas m → (∀ this e, ∃ e', m this e = Normal (this, e')) →
  ui_inv canvas c e →
  ∃ e', (g <- m (gol c) ;; g <- draw g ;; ret (with_gol g c)) e = Normal (c, e')
        ∧ ui_inv canvas c e'.
Proof.
  intros Hk Hc Hs. unfold bind.
  destruct (keeps_same canvas m Hk Hc (gol c) e Hs) as (e1 & -> & Hs1).
  destruct (keeps_same canvas draw (draw_keeps canvas) draw_completes (gol c) e1 Hs1)
    as (e2 & -> & Hs2).
  exists e2. unfold ret. by rewrite with_gol_same.
Qed.

(** A scheduler command, as the handlers run it. *)
Lemma then_keep canvas cmd c e :
  ui_inv canvas c e →
  ∃ g e', (g <- run_command cmd (gol c) ;; ret (with_gol g c)) e = Normal (with_gol g c, e')
          ∧ ui_inv canvas (with_gol g c) e' ∧ scalePower g = scalePower (gol c).
Proof.
  intros Hs. destruct (run_command_keeps canvas cmd (gol c) e Hs) as (g & e' & Hrun & Hs' & Hp).
  exists g, e'. unfold bind. by rewrite Hrun.
Qed.

(** A change of the cell size inside of its bounds builds a new simulation
    of the new size, running at the old interval, and keeps the snapshot. *)
Lemma resize_sound canvas delta c e :
  ui_inv canvas c e → 0 ≤ scalePower (gol c) + delta ≤ 6 →
  ∃ c' e', resize delta c e = Normal (c', e') ∧ ui_inv canvas c' e'
    ∧ scalePower (gol c') = scalePower (gol c) + delta
    ∧ interval (gol c') = interval (gol c)
    ∧ is_Some (timer (gol c')) ∧ drag c' = None ∧ _save c' = _save c.
Proof.
  intros Hs Hk. unfold resize, bind.
  destruct (stop_clears (gol c) e) as (e1 & Hstop & Hempty & _).
  { pose proof (sound_scheduled _ _ _ Hs) as Hsch. unfold scheduled in Hsch.
    destruct (timer (gol c)); eauto. }
  destruct (run_command_keeps canvas Stop (gol c) e Hs) as (g1 & e1' & Hstop' & Hs1 & _).
  simpl in Hstop'. rewrite Hstop in Hstop'. injection Hstop' as <- <-. rewrite Hstop.
  destruct (keeps_same canvas setEmpty (setEmpty_keeps canvas) setEmpty_completes _ e1 Hs1)
    as (e2 & -> & Hs2).
  pose proof Hs2 as [Hgl (Hw & Hh & Hdw & Hdh) _ Hsch2 _ _ Hview _].
  assert (timers e2 = ∅) as Ht2 by exact Hsch2.
  simpl in Hview. simpl.
  destruct (new_GOL_sound (viewsize (gol c)) (scalePower (gol c) + delta) (interval (gol c)) e2)
    as (g3 & e3 & -> & Hs3 & Hp3 & Hi3 & _); rewrite ?Hview; try done.
  rewrite Hview in Hs3.
  destruct (new_Controller_sound canvas g3 (_save c) e3 Hs3)
    as (c' & e' & -> & Hs' & Hp' & Hi' & Htm' & Hd' & Hsv').
  exists c', e'. split; [done|]. split; [done|].
  rewrite Hp', Hi'. done.
Qed.

(** Every event is handled to completion and leaves the page sound; only the
    dash and the equals key change the cell size, and only an unshifted [s]
    changes the snapshot. *)
Lemma handle_sound canvas ev c e :
  ui_inv canvas c e →
  ∃ c' e', handle ev c e = Normal (c', e') ∧ ui_inv canvas c' e'
    ∧ (keeps_size ev = true → scalePower (gol c') = scalePower (gol c))
    ∧ (keeps_snapshot ev = true → _save c' = _save c).
Proof.
  intros Hs. destruct ev as [event| |event|key shiftKey|]; simpl.
  - unfold mousedown.
    destruct (then_draw canvas
                (poke (eventCoord (gol c) event).1 (eventCoord (gol c) event).2
                      (bool_decide (Some (which event) = Some 1)))
                (with_drag (Some (which event)) c) e) as (e' & Hrun & Hs').
    + apply poke_keeps.
    + intros. apply poke_completes.
    + done.
    + eexists _, _. split; [exact Hrun|]. done.
  - exists (with_drag None c), e. done.
  - unfold mousemove. destruct (dragging c).
    + destruct (then_draw canvas
                  (poke (eventCoord (gol c) event).1 (eventCoord (gol c) event).2
                        (bool_decide (drag c = Some 1))) c e) as (e' & Hrun & Hs').
      * apply poke_keeps.
      * intros. apply poke_completes.
      * done.
      * eexists _, _. split; [exact Hrun|]. done.
    + by exists c, e.
  - unfold keyup.
    destruct (key =? 82) eqn:E82.
    { destruct (then_draw canvas (setRandom None) c e (setRandom_keeps canvas None)
                  (setRandom_completes None) Hs) as (e' & Hrun & Hs').
      by exists c, e'. }
    destruct (key =? 46) eqn:E46.
    { destruct (then_draw canvas setEmpty c e (setEmpty_keeps canvas) setEmpty_completes Hs)
        as (e' & Hrun & Hs').
      by exists c, e'. }
    destruct (key =? 32) eqn:E32.
    { destruct (then_keep canvas Toggle c e Hs) as (g & e' & Hrun & Hs' & Hp).
      by exists (with_gol g c), e'. }
    destruct (key =? 83) eqn:E83.
    { destruct shiftKey.
      - destruct (_save c) as [state|] eqn:Esave; [|by exists c, e].
        destruct (keeps_same canvas (set state) (set_keeps canvas state)
                    (set_completes state) (gol c) e Hs) as (e' & Hrun & Hs').
        exists c, e'. unfold bind, ret. rewrite Hrun, with_gol_same. done.
      - destruct (get_sound canvas (gol c) e Hs) as (s & e' & Hrun & Hs' & _).
        exists (with_save (Some s) c), e'. unfold bind, ret. rewrite Hrun.
        split; [done|]. split; [done|]. split; [done|]. simpl. done. }
    destruct (key =? 188) eqn:E188.
    { destruct (then_keep canvas Comma c e Hs) as (g & e' & Hrun & Hs' & Hp).
      by exists (with_gol g c), e'. }
    destruct (key =? 190) eqn:E190.
    { destruct (then_keep canvas Period c e Hs) as (g & e' & Hrun & Hs' & Hp).
      by exists (with_gol g c), e'. }
    destruct (key =? 189) eqn:E189.
    { destruct (Z.leb_spec 0 (scalePower (gol c) - 1)); [|by exists c, e].
      destruct (resize_sound canvas (-1) c e Hs) as (c' & e' & Hrun & Hs' & _ & _ & _ & _ & Hsv).
      { pose proof (sound_power _ _ _ Hs). lia. }
      exists c', e'. split; [done|]. split; [done|]. split; [intros [=]|done]. }
    destruct (key =? 187) eqn:E187.
    { destruct (Z.leb_spec (scalePower (gol c) + 1) 6); [|by exists c, e].
      destruct (resize_sound canvas 1 c e Hs) as (c' & e' & Hrun & Hs' & _ & _ & _ & _ & Hsv).
      { pose proof (sound_power _ _ _ Hs). lia. }
      exists c', e'. split; [done|]. split; [done|]. split; [|done].
      rewrite orb_true_r. intros [=]. }
    by exists c, e.
  - destruct (timer (gol c)); [|by exists c, e].
    destruct (tick_keeps canvas (gol c) e Hs) as (g & e' & Hrun & Hs' & Hp).
    exists (with_gol g c), e'. unfold bind, ret. rewrite Hrun. done.
Qed.

Lemma handle_all_sound canvas evs c e :
  ui_inv canvas c e →
  ∃ c' e', handle_all evs c e = Normal (c', e') ∧ ui_inv canvas c' e'
    ∧ (forallb keeps_size evs = true → scalePower (gol c') = scalePower (gol c))
    ∧ (forallb keeps_snapshot evs = true → _save c' = _save c).
Proof.
  revert c e. induction evs as [|ev evs IH]; intros c e Hs.
  - by exists c, e.
  - destruct (handle_sound canvas ev c e Hs) as (c1 & e1 & Hrun & Hs1 & Hp1 & Hv1).
    destruct (IH c1 e1 Hs1) as (c' & e' & Hrun' & Hs' & Hp' & Hv').
    exists c', e'. cbn [handle_all forallb]. unfold bind. rewrite Hrun.
    split; [done|]. split; [done|]. split.
    + intros [H1 H2]%andb_true_iff. rewrite Hp', Hp1; done.
    + intros [H1 H2]%andb_true_iff. rewrite Hv', Hv1; done.
Qed.

Lemma ready_sound canvas rnd :
  0 ≤ canvas.1 → 0 ≤ canvas.2 → (64 | canvas.1) → (64 | canvas.2) →
  ∃ c e, ready canvas (page rnd) = Normal (c, e) ∧ ui_inv canvas c e
    ∧ scalePower (gol c) = 2 ∧ interval (gol c) = 60 ∧ is_Some (timer (gol c))
    ∧ _save c = None.
Proof.
  intros Hw Hh Hdw Hdh. unfold ready, bind.
  destruct (new_GOL_sound canvas 2 60 (page rnd) eq_refl Hw Hh Hdw Hdh ltac:(lia) eq_refl)
    as (g & e0 & -> & Hs & Hp & Hi & _).
  destruct (new_Controller_sound canvas g None e0 Hs) as (c & e & -> & Hs' & Hp' & Hi' & Ht & _ & Hsv).
  exists c, e. rewrite Hp', Hi'. done.
Qed.

(** ** The codec, the other way round *)

Lemma expand_lookup (buffer : list Z) (i : nat) :
  (i < length buffer * 8)%nat →
  Codec.expand buffer !! i
  = Some (bit_of (Z.testbit (byte_at buffer (i / 8)) (Z.of_nat (i mod 8)))).
Proof.
  intros Hi. rewrite expand_unfold, list_lookup_fmap, lookup_seq_lt by done. done.
Qed.

(** X2: [expand] turns a buffer of [M] bytes into [M * 8] entries, each 0 or
    1, and [compact] packs them into the same bytes again:
    [compact(expand(buffer))] is [buffer]. *)
Theorem compact_expand (buffer : list Z) :
  Forall (λ b, 0 ≤ b < 256) buffer →
  length (Codec.expand buffer) = (length buffer * 8)%nat
  ∧ Forall (λ v, v = 0 ∨ v = 1) (Codec.expand buffer)
  ∧ Codec.compact (Codec.expand buffer) = buffer.
Proof.
  intros Hbytes. split; [apply expand_length|]. split.
  - rewrite expand_unfold. apply Forall_fmap, Forall_forall. intros i _. simpl.
    destruct (Z.testbit _ _); [by right|by left].
  - assert (length (Codec.expand buffer) / 8 = length buffer)%nat as Hlen
      by (rewrite expand_length; apply Nat.div_mul; lia).
    apply list_eq. intros j.
    destruct (decide (j < length buffer)%nat) as [Hj|Hj]; cycle 1.
    { rewrite !lookup_ge_None_2; [done|lia|]. rewrite compact_length. lia. }
    destruct (Codec.compact (Codec.expand buffer) !! j) as [b1|] eqn:E1;
      [|apply lookup_ge_None in E1; rewrite compact_length in E1; lia].
    destruct (buffer !! j) as [b2|] eqn:E2; [|apply lookup_ge_None in E2; lia].
    f_equal. pose proof (byte_at_lookup _ _ _ E1) as <-.
    assert (0 ≤ b2 < 256) as Hb2.
    { rewrite Forall_forall in Hbytes. apply Hbytes. by eapply list_elem_of_lookup_2. }
    apply Z.bits_inj'. intros n Hn. rewrite <- (Z2Nat.id n Hn).
    destruct (decide (Z.to_nat n < 8)%nat) as [Hk|Hk].
    + rewrite compact_testbit by lia. unfold truthy_at.
      rewrite expand_lookup by lia.
      replace ((j * 8 + Z.to_nat n) / 8)%nat with j
        by (apply Nat.div_unique with (Z.to_nat n); lia).
      replace ((j * 8 + Z.to_nat n) mod 8)%nat with (Z.to_nat n)
        by (apply Nat.mod_unique with j; lia).
      rewrite (byte_at_lookup _ _ _ E2). apply truthy_bit_of.
    + rewrite compact_high_bits by lia.
      rewrite <- (Z.mod_small b2 (2 ^ 8)) by (change (2 ^ 8) with 256; lia).
      rewrite Z.mod_pow2_bits_high by lia. done.
Qed.

Lemma compact_expand_witness :
  Forall (λ b, 0 ≤ b < 256) [1; 134; 255]
  ∧ Codec.compact (Codec.expand [1; 134; 255]) = [1; 134; 255].
Proof.
  assert (Forall (λ b, 0 ≤ b < 256) [1; 134; 255]) as Hb by (repeat constructor; lia).
  split; [exact Hb|]. apply (compact_expand [1; 134; 255] Hb).
Defined.

(** ** Reading the grid *)

Lemma cells_binary t : Forall (λ v, v = 0 ∨ v = 1) (cells t).
Proof.
  unfold cells. apply Forall_fmap, Forall_forall. intros v _. simpl.
  destruct (alive v); [by right|by left].
Qed.

(** A generation read back is its own picture in 0 and 1. *)
Lemma truthy_cells (s : list Z) :
  Forall (λ v, v = 0 ∨ v = 1) s →
  (λ i, bit_of (truthy_at s i)) <$> seq 0 (length s) = s.
Proof.
  intros Hs. rewrite fmap_truthy_at. rewrite <- (list_fmap_id s) at 2.
  apply Forall_fmap_ext_1. eapply Forall_impl; [exact Hs|].
  intros v [-> | ->]; done.
Qed.

(** X3: [get] returns the front generation: one entry per cell, each 0 or 1.
    It changes no texture, so that a second [get] returns the same array. *)
Theorem get_reads_front (this : GOL) (e : Env) :
  wf this e →
  ∃ s e', get this e = Normal (s, e')
    ∧ generation this e = Some s
    ∧ length s = Z.to_nat ((statesize this).1 * (statesize this).2)
    ∧ Forall (λ v, v = 0 ∨ v = 1) s
    ∧ gpu e' = gpu e
    ∧ get this e' = Normal (s, e').
Proof.
  intros [Hne (tf & Hf & Hsf & Hbf) _]. pose proof Hsf as (_ & _ & _ & _ & Hl).
  exists (cells tf), (with_attached (Some (front this)) e).
  split; [by apply get_cells|]. split; [unfold generation; by rewrite Hf|].
  split; [by rewrite cells_length|]. split; [apply cells_binary|]. split; [done|].
  by rewrite (get_cells this _ tf).
Qed.

Lemma get_reads_front_witness :
  wf grid3 env3
  ∧ ∃ s e', get grid3 env3 = Normal (s, e')
      ∧ generation grid3 env3 = Some s
      ∧ length s = Z.to_nat ((statesize grid3).1 * (statesize grid3).2)
      ∧ Forall (λ v, v = 0 ∨ v = 1) s
      ∧ gpu e' = gpu env3
      ∧ get grid3 e' = Normal (s, e').
Proof. split; [exact wf_env3|exact (get_reads_front grid3 env3 wf_env3)]. Defined.

(** X4: [set] and [get] undo each other.  What [get] returns after
    [set(values)], for [width * height] booleans, is [values]; and [set] with
    what [get] returned leaves the front generation as it was, whatever was
    done to it in between. *)
Theorem set_get_round_trip (values : list bool) (this : GOL) (e e2 : Env) :
  wf this e → wf this e2 →
  length values = Z.to_nat ((statesize this).1 * (statesize this).2) →
  (∃ e', (g <- set values this ;; get g) e = Normal (bit_of <$> values, e'))
  ∧ (∃ s e1 e', get this e = Normal (s, e1) ∧ set s this e2 = Normal (this, e')
       ∧ generation this e' = generation this e).
Proof.
  intros Hwf Hwf2 Hlen. split.
  - destruct (set_overwrites values this e Hwf) as (e1 & Hset & Hwf1 & Hg & _).
    pose proof Hwf1 as [_ (t1 & Hf1 & Hs1 & _) _].
    unfold bind. rewrite Hset, (get_cells this e1 t1) by done.
    eexists. do 2 f_equal. unfold generation in Hg. rewrite Hf1 in Hg. simpl in Hg.
    injection Hg as ->. rewrite <- Hlen. apply fmap_truthy_at.
  - pose proof Hwf as [_ (tf & Hf & Hsf & _) _]. pose proof Hsf as (_ & _ & _ & _ & Hl).
    destruct (set_overwrites (cells tf) this e2 Hwf2) as (e' & Hset & _ & Hg & _).
    exists (cells tf), (with_attached (Some (front this)) e), e'.
    split; [by apply get_cells|]. split; [done|].
    rewrite Hg. unfold generation. rewrite Hf. simpl. f_equal.
    rewrite <- Hl, <- cells_length. apply truthy_cells, cells_binary.
Qed.

Lemma set_get_round_trip_witness :
  (wf grid2 (env2 (λ _, 0%Q)) ∧ length [true; false; false; true] = Z.to_nat (2 * 2))
  ∧ ∃ e', (g <- set [true; false; false; true] grid2 ;; get g) (env2 (λ _, 0%Q))
          = Normal (bit_of <$> [true; false; false; true], e').
Proof.
  split; [split; [exact (wf_env2 _)|reflexivity]|].
  apply (set_get_round_trip [true; false; false; true] grid2 (env2 (λ _, 0%Q)) (env2 (λ _, 0%Q))
           (wf_env2 _) (wf_env2 _)). reflexivity.
Defined.

(** ** Clearing *)

Lemma truthy_at_zeros n i : truthy_at (Uint8Array n) i = false.
Proof.
  unfold truthy_at, Uint8Array. destruct (replicate n 0 !! i) as [v|] eqn:E; [|done].
  by apply lookup_replicate in E as [-> _].
Qed.

Lemma fmap_const_seq {B} (b : B) (f : nat → B) n :
  (∀ i, f i = b) → f <$> seq 0 n = replicate n b.
Proof.
  intros Hf. apply list_eq. intros i. rewrite list_lookup_fmap.
  destruct (decide (i < n)%nat).
  - rewrite lookup_seq_lt, lookup_replicate_2 by done. simpl. by rewrite Hf.
  - rewrite lookup_seq_ge by lia. symmetry. apply lookup_replicate_None. lia.
Qed.

(** X5: [setEmpty] completes and leaves no live cell, whatever the grid held;
    clearing once more changes nothing of the generation. *)
Theorem setEmpty_clears (this : GOL) (e : Env) :
  wf this e →
  ∃ e', setEmpty this e = Normal (this, e') ∧ wf this e'
    ∧ generation this e'
      = Some (replicate (Z.to_nat ((statesize this).1 * (statesize this).2)) 0)
    ∧ generation_after (setEmpty this) e' = Normal (generation this e').
Proof.
  intros Hwf.
  assert (∀ e0, wf this e0 →
    ∃ e', setEmpty this e0 = Normal (this, e') ∧ wf this e'
      ∧ generation this e'
        = Some (replicate (Z.to_nat ((statesize this).1 * (statesize this).2)) 0)) as Hclear.
  { intros e0 Hwf0. unfold setEmpty, bind, ret.
    destruct (set_overwrites (Uint8Array (Z.to_nat ((statesize this).1 * (statesize this).2)))
                this e0 Hwf0) as (e' & -> & Hwf' & Hg & _).
    exists e'. split; [done|]. split; [done|]. rewrite Hg. f_equal.
    apply fmap_const_seq. intros i. by rewrite truthy_at_zeros. }
  destruct (Hclear e Hwf) as (e' & Hrun & Hwf' & Hg).
  exists e'. split; [done|]. split; [done|]. split; [done|].
  destruct (Hclear e' Hwf') as (e'' & Hrun' & _ & Hg').
  unfold generation_after. rewrite Hrun', Hg', Hg. done.
Qed.

Lemma setEmpty_clears_witness :
  wf grid2 (env2 (λ _, 0%Q))
  ∧ ∃ e', setEmpty grid2 (env2 (λ _, 0%Q)) = Normal (grid2, e') ∧ wf grid2 e'
      ∧ generation grid2 e'
        = Some (replicate (Z.to_nat ((statesize grid2).1 * (statesize grid2).2)) 0)
      ∧ generation_after (setEmpty grid2) e' = Normal (generation grid2 e').
Proof.
  split; [exact (wf_env2 _)|exact (setEmpty_clears grid2 (env2 (λ _, 0%Q)) (wf_env2 _))].
Defined.

(** ** The timer at work *)

Lemma cell_zeros w n x y : cell w (replicate n 0) x y = 0.
Proof. unfold cell. apply (byte_at_Uint8Array n). Qed.

Lemma liveNeighbors_zeros w h n x y : liveNeighbors w h (replicate n 0) x y = 0.
Proof. unfold liveNeighbors. by rewrite !cell_zeros. Qed.

(** A grid without a live cell has none after a step. *)
Lemma next_texture_dead w h src dst :
  sized w h src → binary src → sized w h dst →
  cells src = replicate (Z.to_nat (w * h)) 0 →
  cells (next_texture w h src dst) = replicate (Z.to_nat (w * h)) 0.
Proof.
  intros Hsrc Hb Hdst Hdead. pose proof Hsrc as (Hw & Hh & _).
  destruct (Shader.complete src) eqn:Hc; [|by apply next_texture_incomplete].
  pose proof (next_texture_sized w h src dst Hdst) as (_ & _ & _ & _ & Hl).
  apply list_eq. intros i. unfold cells at 1. rewrite list_lookup_fmap.
  destruct (decide (i < Z.to_nat (w * h))%nat) as [Hi|Hi]; cycle 1.
  { rewrite lookup_ge_None_2 by lia. symmetry. apply lookup_replicate_None. lia. }
  rewrite next_texture_lookup, lookup_replicate_2 by done.
  cbn [fmap option_fmap option_map]. f_equal.
  assert (0 < w) by nia.
  pose proof (Z.div_mod (Z.of_nat i) w ltac:(lia)) as E.
  pose proof (Z.mod_pos_bound (Z.of_nat i) w ltac:(lia)).
  assert (0 ≤ Z.of_nat i `div` w < h).
  { split; [apply Z.div_pos; lia|apply Z.div_lt_upper_bound; nia]. }
  replace (Z.of_nat i) with (Z.of_nat i `div` w * w + Z.of_nat i `mod` w) by lia.
  rewrite shaded_rule by done. rewrite Hdead, liveNeighbors_zeros, cell_zeros. done.
Qed.

(** One firing of the interval, spelled out. *)
Lemma tick_run this e tf tb :
  front this ≠ back this → gpu e !! front this = Some tf → gpu e !! back this = Some tb →
  tick this e
  = Normal (with_back (front this) (with_front (back this) (with_numSteps (numSteps this + 1) this)),
            with_bound (Some (back this))
              (with_gpu (λ g, <[back this := next_texture (statesize this).1 (statesize this).2 tf tb]> g)
                 (with_bound (Some (front this)) (with_attached (Some (back this)) e)))).
Proof.
  intros Hne Hf Hb. unfold tick, bind. rewrite (step_run this e tf tb) by done. done.
Qed.

(** X6: a grid without a live cell stays so: after any number of firings of
    the interval the front generation is still all dead. *)
Theorem dead_grid_stays_dead (n : nat) (this : GOL) (e : Env) :
  wf this e →
  generation this e = Some (replicate (Z.to_nat ((statesize this).1 * (statesize this).2)) 0) →
  ∃ this' e', ticks n this e = Normal (this', e') ∧ wf this' e'
    ∧ generation this' e'
      = Some (replicate (Z.to_nat ((statesize this).1 * (statesize this).2)) 0).
Proof.
  revert this e. induction n as [|n IH]; intros this e Hwf Hdead.
  - by exists this, e.
  - pose proof Hwf as [Hne (tf & Hf & Hsf & Hbf) (tb & Hb & Hsb)].
    cbn [ticks]. unfold bind. rewrite (tick_run this e tf tb) by done.
    set (this1 := with_back _ _). set (e1 := with_bound _ _).
    assert (wf this1 e1) as Hwf1.
    { pose proof (wf_step this e tf tb Hwf Hf Hb) as Hws.
      eapply wf_ext; [| | | |exact Hws]; reflexivity. }
    assert (generation this1 e1
            = Some (replicate (Z.to_nat ((statesize this1).1 * (statesize this1).2)) 0)) as Hdead1.
    { unfold generation, this1, e1. simpl. rewrite lookup_insert_eq. simpl. f_equal.
      apply next_texture_dead; try done.
      unfold generation in Hdead. rewrite Hf in Hdead. by injection Hdead. }
    destruct (IH this1 e1 Hwf1 Hdead1) as (this' & e' & Hrun & Hwf' & Hg).
    by exists this', e'.
Qed.

Lemma dead_grid_stays_dead_witness :
  (wf grid4 env4
   ∧ generation grid4 env4
     = Some (replicate (Z.to_nat ((statesize grid4).1 * (statesize grid4).2)) 0))
  ∧ ∃ this' e', ticks 3 grid4 env4 = Normal (this', e') ∧ wf this' e'
      ∧ generation this' e'
        = Some (replicate (Z.to_nat ((statesize grid4).1 * (statesize grid4).2)) 0).
Proof.
  assert (wf grid4 env4) as Hwf.
  { split.
    - simpl. lia.
    - exists (GL.blank 4 4). split; [reflexivity|]. split; [by vm_compute|].
      unfold binary. simpl. repeat constructor; by left.
    - exists (GL.blank 4 4). split; [reflexivity|]. by vm_compute. }
  assert (generation grid4 env4
          = Some (replicate (Z.to_nat ((statesize grid4).1 * (statesize grid4).2)) 0)) as Hd
    by reflexivity.
  split; [by split|]. exact (dead_grid_stays_dead 3 grid4 env4 Hwf Hd).
Defined.

(** X7: the firings of the interval exchange the two textures and create
    none: after [n] of them [numSteps] has grown by [n], the texture that was
    the front one is the front one again when [n] is even and the back one
    when it is odd, no texture has appeared or disappeared, and the size of
    the grid, the interval and the timers are as before. *)
Theorem ticks_ping_pong (n : nat) (this : GOL) (e : Env) :
  wf this e →
  ∃ this' e', ticks n this e = Normal (this', e') ∧ wf this' e'
    ∧ numSteps this' = numSteps this + Z.of_nat n
    ∧ front this' = (if Nat.even n then front this else back this)
    ∧ back this' = (if Nat.even n then back this else front this)
    ∧ statesize this' = statesize this ∧ interval this' = interval this
    ∧ timer this' = timer this
    ∧ dom (gpu e') = dom (gpu e) ∧ timers e' = timers e.
Proof.
  revert this e. induction n as [|n IH]; intros this e Hwf.
  - exists this, e. split; [done|]. split; [done|]. split; [simpl; lia|]. done.
  - pose proof Hwf as [Hne (tf & Hf & Hsf & Hbf) (tb & Hb & Hsb)].
    cbn [ticks]. unfold bind. rewrite (tick_run this e tf tb) by done.
    set (this1 := with_back _ _). set (e1 := with_bound _ _).
    assert (wf this1 e1) as Hwf1.
    { pose proof (wf_step this e tf tb Hwf Hf Hb) as Hws.
      eapply wf_ext; [| | | |exact Hws]; reflexivity. }
    destruct (IH this1 e1 Hwf1) as (this' & e' & Hrun & Hwf' & Hn & Hfr & Hbk & Hst & Hi & Ht & Hd & Htm).
    exists this', e'. split; [done|]. split; [done|].
    rewrite Nat.even_succ, <- Nat.negb_even.
    rewrite Hn, Hfr, Hbk, Hst, Hi, Ht, Hd, Htm. unfold this1, e1. simpl.
    split; [lia|]. split; [by destruct (Nat.even n)|]. split; [by destruct (Nat.even n)|].
    repeat (split; [done|]). split; [|done].
    rewrite dom_insert_L. apply elem_of_dom_2 in Hb.
    apply subseteq_union_1_L. by apply singleton_subseteq_l.
Qed.

Lemma ticks_ping_pong_witness :
  wf grid3 env3
  ∧ ∃ this' e', ticks 2 grid3 env3 = Normal (this', e') ∧ wf this' e'
      ∧ numSteps this' = numSteps grid3 + Z.of_nat 2
      ∧ front this' = (if Nat.even 2 then front grid3 else back grid3)
      ∧ back this' = (if Nat.even 2 then back grid3 else front grid3)
      ∧ statesize this' = statesize grid3 ∧ interval this' = interval grid3
      ∧ timer this' = timer grid3
      ∧ dom (gpu e') = dom (gpu env3) ∧ timers e' = timers env3.
Proof. split; [exact wf_env3|exact (ticks_ping_pong 2 grid3 env3 wf_env3)]. Defined.

(** ** Pokes in a row *)






(** ** The pointer and the grid *)








(** The cell size divides the canvas. *)
Lemma sound_exact canvas this e :
  sound canvas this e →
  0 < scale this
  ∧ 0 ≤ (statesize this).1 ∧ 0 ≤ (statesize this).2
  ∧ (statesize this).1 * scale this = canvas.1
  ∧ (statesize this).2 * scale this = canvas.2.
Proof.
  intros [_ (Hw & Hh & Hdw & Hdh) _ _ Hp Hsc _ Hst].
  assert (0 < scale this) as Hpos by (rewrite Hsc; apply Z.pow_pos_nonneg; lia).
  assert (scale this | 64) as Hd.
  { exists (2 ^ (6 - scalePower this)). rewrite Hsc, <- Z.pow_add_r by lia.
    by replace (6 - scalePower this + scalePower this) with 6 by lia. }
  rewrite Hst. cbn [fst snd].
  split; [done|]. split; [apply Z.div_pos; lia|]. split; [apply Z.div_pos; lia|].
  split.
  - destruct (Z.divide_trans _ _ _ Hd Hdw) as [k ->]. by rewrite Z.div_mul by lia.
  - destruct (Z.divide_trans _ _ _ Hd Hdh) as [k ->]. by rewrite Z.div_mul by lia.
Qed.





(** ** The page as a whole *)

(** X11: the page never fails and stays sound.  On a page whose canvas has
    sides that are multiples of 64, with WebGL available, every sequence of
    mouse events, keys and firings of the interval after the start is handled
    to completion; after it the two textures are distinct and of the grid's
    size, the cell size is a power of two from 1 to 64 that divides the
    canvas into the grid, and at most one timer is active, the one of the
    current simulation, with the current interval as its delay. *)
Theorem page_stays_sound (canvas : Z * Z) (rnd : nat → Q) (evs : list ui_event) :
  0 ≤ canvas.1 → 0 ≤ canvas.2 → (64 | canvas.1) → (64 | canvas.2) →
  ∃ c e, (c0 <- ready canvas ;; handle_all evs c0) (page rnd) = Normal (c, e)
    ∧ wf (gol c) e
    ∧ 0 ≤ scalePower (gol c) ≤ 6 ∧ scale (gol c) = 2 ^ scalePower (gol c)
    ∧ (statesize (gol c)).1 * scale (gol c) = canvas.1
    ∧ (statesize (gol c)).2 * scale (gol c) = canvas.2
    ∧ scheduled (gol c) e ∧ (size (timers e) ≤ 1)%nat.
Proof.
  intros Hw Hh Hdw Hdh.
  destruct (ready_sound canvas rnd Hw Hh Hdw Hdh) as (c0 & e0 & Hready & Hs0 & _).
  destruct (handle_all_sound canvas evs c0 e0 Hs0) as (c & e & Hrun & Hs & _).
  exists c, e. unfold bind. rewrite Hready. split; [done|].
  destruct (sound_exact canvas (gol c) e Hs) as (_ & _ & _ & Ew & Eh).
  pose proof Hs as [_ _ Hwf Hsch Hp Hsc _ _].
  repeat (split; [done|]). by apply (scheduled_size (gol c)).
Qed.

Lemma page_stays_sound_witness :
  (0 ≤ 512 ∧ 0 ≤ 512 ∧ (64 | 512))
  ∧ ∃ c e, (c0 <- ready (512, 512) ;; handle_all [KeyUp 189 false; Tick; KeyUp 32 false] c0)
             (page (λ _, 0%Q)) = Normal (c, e)
      ∧ wf (gol c) e
      ∧ 0 ≤ scalePower (gol c) ≤ 6 ∧ scale (gol c) = 2 ^ scalePower (gol c)
      ∧ (statesize (gol c)).1 * scale (gol c) = (512, 512).1
      ∧ (statesize (gol c)).2 * scale (gol c) = (512, 512).2
      ∧ scheduled (gol c) e ∧ (size (timers e) ≤ 1)%nat.
Proof.
  assert (64 | 512) as Hd by (exists 8; reflexivity).
  split; [repeat split; lia || exact Hd|].
  apply (page_stays_sound (512, 512) (λ _, 0%Q) [KeyUp 189 false; Tick; KeyUp 32 false]);
    simpl; lia || exact Hd.
Defined.

Lemma sound_grid1 : ui_inv (64, 64) controller1 env1.
Proof.
  split.
  - reflexivity.
  - cbn [fst snd]. repeat split; try lia; exists 1; reflexivity.
  - split.
    + simpl. lia.
    + exists (GL.blank 1 1). split; [reflexivity|]. split; [by vm_compute|].
      unfold binary. simpl. repeat constructor; by left.
    + exists (GL.blank 1 1). split; [reflexivity|]. by vm_compute.
  - reflexivity.
  - simpl. lia.
  - reflexivity.
  - reflexivity.
  - reflexivity.
Defined.



(** ** The keys *)

Lemma keyup_save shiftKey c :
  keyup 83 shiftKey c
  = if shiftKey then
      match _save c with
      | Some state => g <- set state (gol c) ;; ret (with_gol g c)
      | None => ret c
      end
    else state <- get (gol c) ;; ret (with_save (Some state) c).
Proof. reflexivity. Qed.

Lemma sound_statesize canvas this this' e e' :
  sound canvas this e → sound canvas this' e' → scalePower this' = scalePower this →
  statesize this' = statesize this.
Proof.
  intros [_ _ _ _ _ Hsc _ Hst] [_ _ _ _ _ Hsc' _ Hst'] Hp.
  rewrite Hst, Hst', Hsc, Hsc', Hp. done.
Qed.

(** X12: [s] takes a snapshot that [shift+s] brings back: after any events
    that neither change the cell size nor take another snapshot, whatever they
    did to the grid, [shift+s] leaves the front generation that was there
    when [s] was pressed. *)
Theorem snapshot_restores (canvas : Z * Z) (c : Controller) (e : Env) (evs : list ui_event) :
  ui_inv canvas c e →
  forallb keeps_size evs = true → forallb keeps_snapshot evs = true →
  ∃ s c1 e1 c2 e2 e3,
    generation (gol c) e = Some s
    ∧ keyup 83 false c e = Normal (c1, e1)
    ∧ handle_all evs c1 e1 = Normal (c2, e2)
    ∧ keyup 83 true c2 e2 = Normal (c2, e3)
    ∧ generation (gol c2) e3 = Some s.
Proof.
  intros Hs Hsize Hsnap.
  destruct (get_sound canvas (gol c) e Hs) as (s & e1 & Hget & Hs1 & Hg & _ & Hlen & Hbin).
  destruct (handle_all_sound canvas evs (with_save (Some s) c) e1 Hs1)
    as (c2 & e2 & Hrun & Hs2 & Hp & Hsv).
  specialize (Hp Hsize). specialize (Hsv Hsnap). cbn [with_save gol _save] in Hp, Hsv.
  pose proof (sound_statesize canvas (gol c) (gol c2) e e2 Hs Hs2 Hp) as Hst.
  destruct (set_overwrites s (gol c2) e2 (sound_wf _ _ _ Hs2)) as (e3 & Hset & _ & Hg3 & _).
  exists s, (with_save (Some s) c), e1, c2, e2, e3.
  split; [done|]. split; [|split; [done|split]].
  - rewrite keyup_save. unfold bind, ret. by rewrite Hget.
  - rewrite keyup_save, Hsv. unfold bind, ret. by rewrite Hset, with_gol_same.
  - rewrite Hg3, Hst, <- Hlen. f_equal. by apply truthy_cells.
Qed.

Lemma snapshot_restores_witness :
  (ui_inv (64, 64) controller1 env1
   ∧ forallb keeps_size [KeyUp 82 false; Tick; KeyUp 32 false] = true
   ∧ forallb keeps_snapshot [KeyUp 82 false; Tick; KeyUp 32 false] = true)
  ∧ ∃ s c1 e1 c2 e2 e3,
      generation (gol controller1) env1 = Some s
      ∧ keyup 83 false controller1 env1 = Normal (c1, e1)
      ∧ handle_all [KeyUp 82 false; Tick; KeyUp 32 false] c1 e1 = Normal (c2, e2)
      ∧ keyup 83 true c2 e2 = Normal (c2, e3)
      ∧ generation (gol c2) e3 = Some s.
Proof.
  split; [split; [exact sound_grid1|by split]|].
  exact (snapshot_restores (64, 64) controller1 env1 [KeyUp 82 false; Tick; KeyUp 32 false]
           sound_grid1 eq_refl eq_refl).
Defined.

Lemma keyup_dash shiftKey c :
  keyup 189 shiftKey c = if 0 <=? scalePower (gol c) - 1 then resize (-1) c else ret c.
Proof. reflexivity. Qed.

Lemma keyup_equals shiftKey c :
  keyup 187 shiftKey c = if scalePower (gol c) + 1 <=? 6 then resize 1 c else ret c.
Proof. reflexivity. Qed.

(** X13: the dash and the equals key change the cell size by one power of
    two inside of 1 to 64 and not beyond: at the smallest size the dash, and
    at the largest the equals key, does nothing.  Otherwise a new simulation
    replaces the old one: its grid has twice, or half, as many columns and
    rows, it runs at the old interval with a timer of its own, and the
    snapshot is kept. *)
Theorem resize_keys (canvas : Z * Z) (shiftKey : bool) (c : Controller) (e : Env) :
  ui_inv canvas c e →
  (scalePower (gol c) = 0 → keyup 189 shiftKey c e = Normal (c, e))
  ∧ (scalePower (gol c) = 6 → keyup 187 shiftKey c e = Normal (c, e))
  ∧ (0 < scalePower (gol c) →
     ∃ c' e', keyup 189 shiftKey c e = Normal (c', e') ∧ ui_inv canvas c' e'
       ∧ scalePower (gol c') = scalePower (gol c) - 1
       ∧ (statesize (gol c')).1 = 2 * (statesize (gol c)).1
       ∧ (statesize (gol c')).2 = 2 * (statesize (gol c)).2
       ∧ interval (gol c') = interval (gol c) ∧ is_Some (timer (gol c'))
       ∧ drag c' = None ∧ _save c' = _save c)
  ∧ (scalePower (gol c) < 6 →
     ∃ c' e', keyup 187 shiftKey c e = Normal (c', e') ∧ ui_inv canvas c' e'
       ∧ scalePower (gol c') = scalePower (gol c) + 1
       ∧ 2 * (statesize (gol c')).1 = (statesize (gol c)).1
       ∧ 2 * (statesize (gol c')).2 = (statesize (gol c)).2
       ∧ interval (gol c') = interval (gol c) ∧ is_Some (timer (gol c'))
       ∧ drag c' = None ∧ _save c' = _save c).
Proof.
  intros Hs. pose proof (sound_power _ _ _ Hs) as Hp.
  destruct (sound_exact canvas (gol c) e Hs) as (Hpos & _ & _ & Ew & Eh).
  pose proof (sound_scale _ _ _ Hs) as Hsc.
  split; [|split; [|split]].
  - intros E. rewrite keyup_dash, E. done.
  - intros E. rewrite keyup_equals, E. done.
  - intros Hlo. rewrite keyup_dash.
    destruct (Z.leb_spec 0 (scalePower (gol c) - 1)); [|lia].
    destruct (resize_sound canvas (-1) c e Hs ltac:(lia))
      as (c' & e' & Hrun & Hs' & Hp' & Hi & Ht & Hd & Hsv).
    exists c', e'. split; [done|]. split; [done|].
    destruct (sound_exact canvas (gol c') e' Hs') as (Hpos' & _ & _ & Ew' & Eh').
    pose proof (sound_scale _ _ _ Hs') as Hsc'.
    assert (scale (gol c) = 2 * scale (gol c')) as E.
    { rewrite Hsc, Hsc', Hp'.
      replace (scalePower (gol c)) with (1 + (scalePower (gol c) + -1)) at 1 by lia.
      rewrite Z.pow_add_r by lia. done. }
    split; [lia|]. split; [nia|]. split; [nia|]. done.
  - intros Hhi. rewrite keyup_equals.
    destruct (Z.leb_spec (scalePower (gol c) + 1) 6); [|lia].
    destruct (resize_sound canvas 1 c e Hs ltac:(lia))
      as (c' & e' & Hrun & Hs' & Hp' & Hi & Ht & Hd & Hsv).
    exists c', e'. split; [done|]. split; [done|].
    destruct (sound_exact canvas (gol c') e' Hs') as (Hpos' & _ & _ & Ew' & Eh').
    pose proof (sound_scale _ _ _ Hs') as Hsc'.
    assert (scale (gol c') = 2 * scale (gol c)) as E.
    { rewrite Hsc, Hsc', Hp', Z.add_comm, Z.pow_add_r by lia. done. }
    split; [done|]. split; [nia|]. split; [nia|]. done.
Qed.

Lemma resize_keys_witness :
  ui_inv (64, 64) controller1 env1
  ∧ (scalePower (gol controller1) = 6 → keyup 187 false controller1 env1 = Normal (controller1, env1)).
Proof.
  split; [exact sound_grid1|].
  apply (resize_keys (64, 64) false controller1 env1 sound_grid1).
Defined.

Lemma keyup_comma shiftKey c :
  keyup 188 shiftKey c = (g <- key_comma (gol c) ;; ret (with_gol g c)).
Proof. reflexivity. Qed.

Lemma keyup_period shiftKey c :
  keyup 190 shiftKey c = (g <- key_period (gol c) ;; ret (with_gol g c)).
Proof. reflexivity. Qed.

(** A restart with a new interval: the simulation runs, with one timer, at
    that interval, and no texture has changed. *)
Lemma restart_run i this e :
  scheduled this e →
  ∃ this' e' id, (this1 <- stop (with_interval i this) ;; start this1) e = Normal (this', e')
    ∧ timer this' = Some id ∧ interval this' = i ∧ timers e' = {[id := i]}
    ∧ gpu e' = gpu e
    ∧ front this' = front this ∧ back this' = back this ∧ statesize this' = statesize this.
Proof.
  intros Hs. destruct (stop_clears (with_interval i this) e (scheduled_weaken this e i Hs))
    as (e1 & Hstop & Hempty & _).
  destruct (start_stopped (with_timer None (with_interval i this)) e1 eq_refl Hempty)
    as (this' & e' & Hstart & Hs' & Ht & Hi).
  exists this', e', (next_timer e1). unfold bind. rewrite Hstop.
  split; [done|]. split; [done|]. split; [done|].
  split; [unfold scheduled in Hs'; rewrite Ht in Hs'; by rewrite Hs', Hi|].
  assert (run_command Stop (with_interval i this) e = Normal (with_timer None (with_interval i this), e1))
    as Hf1 by done.
  assert (run_command Start (with_timer None (with_interval i this)) e1 = Normal (this', e'))
    as Hf2 by done.
  apply run_command_frame in Hf1, Hf2. cbn [with_timer with_interval scalePower scale viewsize
    statesize front back numSteps] in Hf1, Hf2.
  destruct Hf1 as (_ & _ & _ & ? & ? & ? & _ & _ & ?).
  destruct Hf2 as (_ & _ & _ & ? & ? & ? & _ & _ & ?).
  repeat split; congruence.
Qed.

(** X14: the comma doubles the interval, or makes it 1 when it was 0, and
    the period halves it, rounding down.  After either key the simulation is
    running, also when it was stopped before, with exactly one timer whose
    delay is the new interval, and the grid is as it was. *)
Theorem interval_keys (canvas : Z * Z) (shiftKey : bool) (c : Controller) (e : Env) :
  ui_inv canvas c e →
  (∃ g e' id, keyup 188 shiftKey c e = Normal (with_gol g c, e')
     ∧ interval g = (if interval (gol c) =? 0 then 1 else interval (gol c) * 2)
     ∧ timer g = Some id ∧ timers e' = {[id := interval g]}
     ∧ generation g e' = generation (gol c) e)
  ∧ (∃ g e' id, keyup 190 shiftKey c e = Normal (with_gol g c, e')
       ∧ interval g = interval (gol c) `div` 2
       ∧ timer g = Some id ∧ timers e' = {[id := interval g]}
       ∧ generation g e' = generation (gol c) e).
Proof.
  intros Hs. pose proof (sound_scheduled _ _ _ Hs) as Hsch. split.
  - destruct (restart_run (if interval (gol c) =? 0 then 1 else interval (gol c) * 2)
                (gol c) e Hsch) as (g & e' & id & Hrun & Ht & Hi & Htm & Hg & Hf & _).
    exists g, e', id. rewrite keyup_comma. unfold bind at 1. unfold key_comma. rewrite Hrun.
    split; [done|]. split; [done|]. split; [done|]. split; [by rewrite Hi|].
    unfold generation. by rewrite Hg, Hf.
  - destruct (restart_run (interval (gol c) `div` 2) (gol c) e Hsch)
      as (g & e' & id & Hrun & Ht & Hi & Htm & Hg & Hf & _).
    exists g, e', id. rewrite keyup_period. unfold bind at 1. unfold key_period. rewrite Hrun.
    split; [done|]. split; [done|]. split; [done|]. split; [by rewrite Hi|].
    unfold generation. by rewrite Hg, Hf.
Qed.

Lemma interval_keys_witness :
  ui_inv (64, 64) controller1 env1
  ∧ ∃ g e' id, keyup 190 false controller1 env1 = Normal (with_gol g controller1, e')
      ∧ interval g = interval (gol controller1) `div` 2
      ∧ timer g = Some id ∧ timers e' = {[id := interval g]}
      ∧ generation g e' = generation (gol controller1) env1.
Proof.
  split; [exact sound_grid1|].
  apply (interval_keys (64, 64) false controller1 env1 sound_grid1).
Defined.

(** ** The timings *)

Lemma samples_push name v timings :
  Timing.samples name (Timing.push name v timings)
  = (λ l, l ++ [v]) <$> Timing.samples name timings.
Proof.
  induction timings as [|[k l] rest IH]; [done|]. cbn [Timing.push Timing.samples].
  destruct (decide (k = name)) as [->|Hne]; cbn [Timing.samples].
  - by rewrite decide_True.
  - by rewrite decide_False.
Qed.

Lemma samples_push_ne k name v timings :
  k ≠ name → Timing.samples k (Timing.push name v timings) = Timing.samples k timings.
Proof.
  intros Hne. induction timings as [|[k' l] rest IH]; [done|].
  cbn [Timing.push Timing.samples].
  destruct (decide (k' = name)) as [->|Hne']; cbn [Timing.samples].
  - by rewrite !decide_False.
  - destruct (decide (k' = k)); [done|apply IH].
Qed.

Lemma push_keys name v timings : (Timing.push name v timings).*1 = timings.*1.
Proof.
  induction timings as [|[k l] rest IH]; [done|]. cbn [Timing.push].
  destruct (decide (k = name)); cbn [fmap list_fmap fst]; [done|].
  f_equal. apply IH.
Qed.

Lemma samples_new k name timings :
  Timing.samples name timings = None →
  Timing.samples k (timings ++ [(name, [])])
  = if decide (k = name) then Some [] else Timing.samples k timings.
Proof.
  induction timings as [|[k' l] rest IH]; cbn [app Timing.samples].
  - intros _. destruct (decide (name = k)) as [->|Hne].
    + by rewrite decide_True.
    + by rewrite decide_False.
  - destruct (decide (k' = name)) as [->|Hne]; [done|]. intros Hnone.
    destruct (decide (k' = k)) as [->|Hne']; [by rewrite decide_False|]. by apply IH.
Qed.

Lemma hasOwnProperty_spec name timings :
  Timing.hasOwnProperty name timings = false ↔ Timing.samples name timings = None.
Proof.
  unfold Timing.hasOwnProperty. rewrite bool_decide_eq_false, <- eq_None_not_Some. done.
Qed.

(** X15: for a plain name (not made of digits only, not ['__proto__'], not
    ['hasOwnProperty']) on a table of plain names, [timeFn] runs the action
    once, between two readings of the clock, and appends the difference of
    the readings to the samples of its name, after all earlier ones.  A name
    seen for the first time becomes the last key, the samples of every other
    name are untouched, the table stays one of plain names, and the result
    and the effects of the action are passed on. *)
Theorem timeFn_records {A} (nowMillis : M float) (name : string) (fn : M A)
    (timings : Timing.series) (e e0 e1 e2 : Env) (beginTiming endTiming : float) (a : A) :
  Timing.plain name = true →
  Forall (λ k, Timing.plain k = true) timings.*1 →
  nowMillis e = Normal (beginTiming, e0) →
  fn e0 = Normal (a, e1) →
  nowMillis e1 = Normal (endTiming, e2) →
  ∃ timings',
    Timing.timeFn nowMillis name fn timings e = Normal ((a, timings'), e2)
    ∧ Timing.samples name timings'
      = Some (default [] (Timing.samples name timings) ++ [(endTiming - beginTiming)%float])
    ∧ (∀ k, k ≠ name → Timing.samples k timings' = Timing.samples k timings)
    ∧ timings'.*1
      = (if Timing.hasOwnProperty name timings then timings.*1 else timings.*1 ++ [name])
    ∧ Forall (λ k, Timing.plain k = true) timings'.*1.
Proof.
  intros Hname Hkeys H0 H1 H2. unfold Timing.timeFn, bind, ret. rewrite H0, H1, H2.
  eexists. split; [reflexivity|].
  destruct (Timing.hasOwnProperty name timings) eqn:Hhas.
  - apply bool_decide_eq_true in Hhas as [l Hl].
    split; [by rewrite samples_push, Hl|]. split; [|split].
    + intros k Hk. by apply samples_push_ne.
    + apply push_keys.
    + by rewrite push_keys.
  - apply hasOwnProperty_spec in Hhas.
    split; [|split; [|split]].
    + by rewrite samples_push, samples_new, decide_True, Hhas.
    + intros k Hk. rewrite samples_push_ne, samples_new, decide_False; done.
    + by rewrite push_keys, fmap_app.
    + rewrite push_keys, fmap_app. apply Forall_app. split; [done|]. by constructor.
Qed.

Lemma timeFn_records_witness :
  (Timing.plain "step" = true
   ∧ Forall (λ k, Timing.plain k = true) [("draw", [3%float])].*1
   ∧ clock59 env1 = Normal (5%float, with_drawn 1 env1)
   ∧ ret 0%nat (with_drawn 1 env1) = Normal (0%nat, with_drawn 1 env1)
   ∧ clock59 (with_drawn 1 env1) = Normal (9%float, with_drawn 1 env1))
  ∧ ∃ timings',
      Timing.timeFn clock59 "step" (ret 0%nat) [("draw", [3%float])] env1
      = Normal ((0%nat, timings'), with_drawn 1 env1)
      ∧ Timing.samples "step" timings' = Some [4%float]
      ∧ Timing.samples "draw" timings' = Some [3%float]
      ∧ timings'.*1 = ["draw"; "step"].
Proof.
  assert (Forall (λ k, Timing.plain k = true) [("draw", [3%float])].*1) as Hk
    by (by repeat constructor).
  split; [by repeat split|].
  destruct (timeFn_records clock59 "step" (ret 0%nat) [("draw", [3%float])]
              env1 (with_drawn 1 env1) (with_drawn 1 env1) (with_drawn 1 env1)
              5%float 9%float 0%nat eq_refl Hk eq_refl eq_refl eq_refl)
    as (t & Hrun & Hs & Ho & Hkeys & _).
  exists t. split; [exact Hrun|]. split; [exact Hs|]. split; [|exact Hkeys].
  by rewrite Ho.
Defined.

Lemma slice_last {A} (n : Z) (l : list A) :
  0 < n → Timing.slice (- n) l = drop (length l - Z.to_nat n) l.
Proof.
  intros Hn. unfold Timing.slice. destruct (Z.ltb_spec (- n) 0); [|lia].
  f_equal. lia.
Qed.

Lemma slice_whole {A} (l : list A) :
  Timing.slice (- 0) l = Timing.slice (- Z.of_nat (length l)) l.
Proof.
  unfold Timing.slice. f_equal. change (- 0) with 0. change (0 <? 0) with false. cbv iota.
  destruct (Z.ltb_spec (- Z.of_nat (length l)) 0); lia.
Qed.

(** The average over a window of [n > 0] steps of a name that has samples. *)
Lemma average_last (n : Z) (l : list float) :
  0 < n → l ≠ [] →
  Timing.average n l
  = (foldl PrimFloat.add 0 (drop (length l - Z.to_nat n) l)
     / Timing.length_number (drop (length l - Z.to_nat n) l))%float.
Proof.
  intros Hn Hl. unfold Timing.average. rewrite slice_last by done.
  assert (0 < length (drop (length l - Z.to_nat n) l))%nat as Hpos.
  { rewrite length_drop. destruct l; [done|]. simpl length. lia. }
  apply Nat.ltb_lt in Hpos. by rewrite Hpos.
Qed.

(** X16: the statistics have one line for each key of the table, in the
    order of [Object.keys].  For a window of [everyNSteps > 0] steps the
    average of a name that has samples is the sum of its last [everyNSteps]
    samples, or of all of them while there are fewer, divided by their
    number, both in floating point: the samples 3, 3 and 4 average to
    3.3333333333333335.  A name with no samples gets 0, and a window of 0
    steps averages over all samples. *)
Theorem calcTimingsStats_averages (everyNSteps : Z) (timings : Timing.series) :
  (Timing.calcTimingsStats everyNSteps timings).*1 = timings.*1
  ∧ (∀ k l, 0 < everyNSteps → (k, l) ∈ timings → l ≠ [] →
       let window := drop (length l - Z.to_nat everyNSteps) l in
       (k, (foldl PrimFloat.add 0 window / Timing.length_number window)%float)
         ∈ Timing.calcTimingsStats everyNSteps timings
       ∧ length window = (Z.to_nat everyNSteps `min` length l)%nat)
  ∧ (∀ k, (k, []) ∈ timings → (k, 0%float) ∈ Timing.calcTimingsStats everyNSteps timings)
  ∧ Timing.calcTimingsStats 0 timings
    = (λ kl, (kl.1, Timing.average (Z.of_nat (length kl.2)) kl.2)) <$> timings
  ∧ Timing.calcTimingsStats 100 [("step", [3; 3; 4]%float)]
    = [("step", 0x1.aaaaaaaaaaaabp+1%float)].
Proof.
  split; [|split; [|split; [|split]]].
  - unfold Timing.calcTimingsStats. rewrite <- list_fmap_compose. done.
  - intros k l Hn Hin Hl. cbv zeta. split; [|rewrite length_drop; lia].
    rewrite <- average_last by done.
    unfold Timing.calcTimingsStats. apply list_elem_of_fmap. by exists (k, l).
  - intros k Hin. unfold Timing.calcTimingsStats. apply list_elem_of_fmap.
    exists (k, []). split; [|done]. cbn [fst snd]. f_equal.
    unfold Timing.average, Timing.slice. by rewrite drop_nil.
  - unfold Timing.calcTimingsStats. apply list_fmap_ext. intros i [k l] _.
    cbn [fst snd]. f_equal. unfold Timing.average. by rewrite slice_whole.
  - by vm_compute.
Qed.
